(** * Title resolution and hybrid ranking of [streamlit_app.py]

    A shallow embedding of [jaccard_similarity], [correct_name] and
    [recommend_game] (src/streamlit_app.py, lines 66-159).

    Conventions of the embedding.
    - A Python [float] is an exact rational ([Q]); scores are compared with
      [Qeq]/[Qle], so rounding is not modelled.
    - A Python [int] is a [Z]; a [str] is a [string] of ASCII characters.
    - A tag set (a Python [set] of [str]) is a [gset string].
    - The DataFrame [data] is the list of its rows under the default
      [RangeIndex], so that a row's label is its position.
    - [sim_matrix] is a two-dimensional float array, a list of rows.  It is
      the one mutable object of the program: [recommend_game] returns the
      matrix as it is after the call next to its outcome.
    - A raised exception is the [Raise] outcome. *)

From Stdlib Require Import ZArith QArith Qminmax Ascii String List Lia.
From Stdlib Require Import Permutation Sorted Lqa.
From stdpp Require Import base gmap sets strings list.
Import ListNotations.

Local Open Scope Z_scope.
Local Open Scope Q_scope.
Local Open Scope string_scope.
Local Open Scope list_scope.

(** ** Exceptions *)

Inductive exn : Type :=
| TypeError
| IndexError
| KeyError
| ValueError
| ZeroDivisionError.

Inductive result (A : Type) : Type :=
| Ret (a : A)
| Raise (e : exn).

Arguments Ret {A} a.
Arguments Raise {A} e.

Definition bind {A B : Type} (r : result A) (k : A -> result B) : result B :=
  match r with
  | Ret a => k a
  | Raise e => Raise e
  end.

Notation "x <- r ;; k" := (bind r (fun x => k))
  (at level 100, r at next level, right associativity).

(** ** [jaccard_similarity] (lines 66-78) *)

(** Python's [a / b] on two ints: a float, or [ZeroDivisionError]. *)
Definition py_truediv (a b : nat) : result Q :=
  match b with
  | O => Raise ZeroDivisionError
  | S _ => Ret (Z.of_nat a # Pos.of_nat b)
  end.

Definition jaccard_similarity (set1 set2 : gset string) : result Q :=
  let intersection := size (set1 ∩ set2) in
  let union := size (set1 ∪ set2) in
  if negb (Nat.eqb union 0) then py_truediv intersection union else Ret 0.

(** ** The catalog and the similarity matrix *)

(** A row of [data]: the columns the program reads. *)
Record row : Type := mk_row {
  Name : string;
  Tags : gset string;
  Header_image : string
}.

Abbreviation DataFrame := (list row).

(** [sim_matrix]: a list of rows of floats. *)
Abbreviation matrix := (list (list Q)).

(** An entry of [game_list]: the dict [{"titulo": ..., "img_url": ...}]. *)
Record game : Type := mk_game {
  titulo : string;
  img_url : string
}.

(** ** [str.lower] and [str.strip] on ASCII text *)

Definition lower_char (c : ascii) : ascii :=
  let n := nat_of_ascii c in
  if (Nat.leb 65 n && Nat.leb n 90)%bool then ascii_of_nat (n + 32) else c.

Fixpoint lower (s : string) : string :=
  match s with
  | EmptyString => EmptyString
  | String c s' => String (lower_char c) (lower s')
  end.

(** [str.isspace] on one ASCII character: tab, line feed, vertical tab,
    form feed, carriage return, the four separators 28-31 and the space. *)
Definition is_space (c : ascii) : bool :=
  let n := nat_of_ascii c in
  ((Nat.leb 9 n && Nat.leb n 13) || (Nat.leb 28 n && Nat.leb n 32))%bool.

Fixpoint lstrip (l : list ascii) : list ascii :=
  match l with
  | [] => []
  | c :: l' => if is_space c then lstrip l' else l
  end.

Definition strip (s : string) : string :=
  string_of_list_ascii
    (rev (lstrip (rev (lstrip (list_ascii_of_string s))))).

(** ** numpy on one-dimensional float arrays *)

Definition Qlt_bool (a b : Q) : bool := negb (Qle_bool b a).

(** [np.max]: raises on an empty array. *)
Definition np_max (v : list Q) : result Q :=
  match v with
  | [] => Raise ValueError
  | x :: xs => Ret (fold_left Qmax xs x)
  end.

(** [if np.max(v) > 0: v /= np.max(v)]; the array after the statement. *)
Definition normalize (v : list Q) : result (list Q) :=
  m <- np_max v ;;
  if Qlt_bool 0 m then Ret (map (fun x => x / m) v) else Ret v.

(** [alpha * a] for a float [alpha]. *)
Definition np_scale (alpha : Q) (a : list Q) : list Q :=
  map (Qmult alpha) a.

(** [a + b] with numpy's broadcasting of a length-one operand. *)
Definition np_add (a b : list Q) : result (list Q) :=
  if Nat.eqb (length a) (length b) then Ret (zip_with Qplus a b)
  else match a, b with
       | [x], _ => Ret (map (Qplus x) b)
       | _, [y] => Ret (map (fun x => x + y) a)
       | _, _ => Raise ValueError
       end.

(** [argsort]: the indices that sort the array in ascending order.  The
    model is the stable insertion sort; numpy's default sort leaves the
    order of equal scores unspecified. *)
Fixpoint insert_sorted (p : nat * Q) (l : list (nat * Q)) : list (nat * Q) :=
  match l with
  | [] => [p]
  | q :: l' => if Qle_bool (snd p) (snd q) then p :: l
               else q :: insert_sorted p l'
  end.

Definition argsort (v : list Q) : list nat :=
  map fst (fold_right insert_sorted [] (combine (seq 0 (length v)) v)).

(** [order] lists positions of [v] by ascending score. *)
Definition ascending (v : list Q) (order : list nat) : Prop :=
  StronglySorted (fun i j => nth i v 0 <= nth j v 0) order.

Definition descending (v : list Q) (order : list nat) : Prop :=
  StronglySorted (fun i j => nth j v 0 <= nth i v 0) order.

(** A Python slice [l[start:stop]]. *)
Definition py_clamp (len i : Z) : Z :=
  if (i <? 0)%Z then Z.max (i + len) 0 else Z.min i len.

Definition py_slice {A : Type} (l : list A) (start stop : Z) : list A :=
  let len := Z.of_nat (length l) in
  let lo := py_clamp len start in
  let hi := py_clamp len stop in
  firstn (Z.to_nat (hi - lo)) (skipn (Z.to_nat lo) l).

(** An array whose entries are all zero. *)
Definition all_zero (v : list Q) : Prop := Forall (fun x => x == 0) v.

(** Equality of float arrays, entry by entry. *)
Fixpoint array_eqb (a b : list Q) : bool :=
  match a, b with
  | [], [] => true
  | x :: a', y :: b' => (Qeq_bool x y && array_eqb a' b')%bool
  | _, _ => false
  end.

Fixpoint matrix_eqb (a b : matrix) : bool :=
  match a, b with
  | [], [] => true
  | r :: a', r' :: b' => (array_eqb r r' && matrix_eqb a' b')%bool
  | _, _ => false
  end.

(** ** The computation on the shared matrix *)

(** A step that may raise and may write to [sim_matrix]; what was written
    before an exception stays written. *)
Definition M (A : Type) : Type := matrix -> result A * matrix.

Definition m_ret {A : Type} (a : A) : M A := fun m => (Ret a, m).

Definition m_bind {A B : Type} (c : M A) (k : A -> M B) : M B :=
  fun m => match c m with
           | (Ret a, m') => k a m'
           | (Raise e, m') => (Raise e, m')
           end.

Definition lift {A : Type} (r : result A) : M A := fun m => (r, m).

Notation "x <~ c ;; k" := (m_bind c (fun x => k))
  (at level 100, c at next level, right associativity).

(** [sim_matrix[g_idx]]: a view of the row. *)
Definition get_row (g_idx : nat) : M (list Q) :=
  fun m => match m !! g_idx with
           | Some r => (Ret r, m)
           | None => (Raise IndexError, m)
           end.

(** Writing through the view. *)
Definition set_row (g_idx : nat) (r : list Q) : M unit :=
  fun m => (Ret tt, <[g_idx := r]> m).

(** ** [correct_name] (lines 80-98) and [recommend_game] (lines 100-159) *)

Definition default_threshold : Z := 80.

Definition not_found_message : string :=
  "Jogo não encontrado. Verifique o nome e tente novamente.".

Definition output_message (title : string) : string :=
  String.append "Com base no jogo '"
    (String.append title "', recomendamos os seguintes títulos:").

(** [title in data['Name'].values] *)
Definition title_in (title : string) (data : DataFrame) : bool :=
  existsb (String.eqb title) (map Name data).

(** [data[data['Name'] == title].index[0]] *)
Fixpoint first_index (title : string) (data : DataFrame) : option nat :=
  match data with
  | [] => None
  | r :: rest => if String.eqb (Name r) title then Some O
                 else option_map S (first_index title rest)
  end.

Definition g_index (title : string) (data : DataFrame) : result nat :=
  match first_index title data with
  | Some g => Ret g
  | None => Raise IndexError
  end.

(** [data.loc[g_idx, 'Tags']] *)
Definition tags_at (g_idx : nat) (data : DataFrame) : result (gset string) :=
  match data !! g_idx with
  | Some r => Ret (Tags r)
  | None => Raise KeyError
  end.

(** The loop of lines 130-134 from position [idx] on; [rows] are the rows
    of [data] that are left. *)
Fixpoint jaccard_loop (data : DataFrame) (g_idx idx : nat) (rows : list row)
    : result (list Q) :=
  match rows with
  | [] => Ret []
  | r :: rest =>
      s <- (if Nat.eqb idx g_idx then Ret 0
            else (tags_g <- tags_at g_idx data ;;
                  jaccard_similarity tags_g (Tags r))) ;;
      scores <- jaccard_loop data g_idx (S idx) rest ;;
      Ret (s :: scores)
  end.

(** Lines 127-136: the tag scores before normalization. *)
Definition jaccard_scores (g_idx : nat) (data : DataFrame) : result (list Q) :=
  jaccard_loop data g_idx 0 data.

(** Lines 143-145: [cosine_scores] is a view of row [g_idx], and the
    division writes through it. *)
Definition cosine_scores (g_idx : nat) : M (list Q) :=
  view <~ get_row g_idx ;;
  m <~ lift (np_max view) ;;
  if Qlt_bool 0 m then
    let scaled := map (fun x => x / m) view in
    _ <~ set_row g_idx scaled ;;
    m_ret scaled
  else m_ret view.

(** Line 148. *)
Definition final_score (alpha : Q) (cosine jaccard : list Q)
    : result (list Q) :=
  np_add (np_scale alpha cosine) (np_scale (1 - alpha) jaccard).

(** Line 149. *)
Definition recomm_idx (final : list Q) (n_recommendation : Z) : list nat :=
  py_slice (rev (argsort final)) 1 (n_recommendation + 1).

(** Lines 154-157; [iloc] raises out of range. *)
Fixpoint game_list_of (data : DataFrame) (idxs : list nat) : result (list game) :=
  match idxs with
  | [] => Ret []
  | idx :: rest =>
      match data !! idx with
      | Some r =>
          games <- game_list_of data rest ;;
          Ret (mk_game (Name r) (Header_image r) :: games)
      | None => Raise IndexError
      end
  end.

(** Lines 127-148, once [g_idx] is known: the combined scores. *)
Definition final_scores_at (g_idx : nat) (data : DataFrame) (alpha : Q)
    : M (list Q) :=
  scores <~ lift (jaccard_scores g_idx data) ;;
  jaccard <~ lift (normalize scores) ;;
  cosine <~ cosine_scores g_idx ;;
  lift (final_score alpha cosine jaccard).

(** Lines 127-159. *)
Definition recommend_at (g_idx : nat) (title : string) (data : DataFrame)
    (n_recommendation : Z) (alpha : Q) : M (string * list game) :=
  final <~ final_scores_at g_idx data alpha ;;
  games <~ lift (game_list_of data (recomm_idx final n_recommendation)) ;;
  m_ret (output_message title, games).

Inductive resolution : Type :=
| Found (title : string)
| NotFound.

Section Resolver.

(** [thefuzz.process.extractOne query choices]: the best choice with its
    score, or [None] when there is none.  The library is not part of the
    repository; the program is modelled over any such function. *)
Variable extractOne : string -> list string -> option (string * Z).

Definition correct_name (title : string) (data : DataFrame) (threshold : Z)
    : result (option string) :=
  let game_names := map Name data in
  match extractOne title game_names with
  | None => Raise TypeError
  | Some (best_match, score) =>
      if (threshold <=? score)%Z then Ret (Some best_match) else Ret None
  end.

(** Lines 114-123.  [threshold] is the argument of [correct_name] that
    [recommend_game] leaves at its default. *)
Definition resolve_title (threshold : Z) (title : string) (data : DataFrame)
    : result resolution :=
  let title := strip (lower title) in
  if negb (title_in title data) then
    corr_title <- correct_name title data threshold ;;
    match corr_title with
    | Some corr =>
        if (negb (String.eqb corr "") && title_in corr data)%bool
        then Ret (Found corr) else Ret NotFound
    | None => Ret NotFound
    end
  else Ret (Found title).

Definition recommend_game (title : string) (data : DataFrame)
    (n_recommendation : Z) (alpha : Q) : M (string * list game) :=
  r <~ lift (resolve_title default_threshold title data) ;;
  match r with
  | NotFound => m_ret (not_found_message, [])
  | Found title =>
      g_idx <~ lift (g_index title data) ;;
      recommend_at g_idx title data n_recommendation alpha
  end.

End Resolver.

(** ** [get_random_popular_games] (lines 161-197), on a dict *)

(** A value of the dict [popular_games]: a Python list, or another object,
    with the length [len] gives for it when it has one. *)
Inductive column (A : Type) : Type :=
| Col (cells : list A)
| NotList (len : option nat).

Arguments Col {A} cells.
Arguments NotList {A} len.

Section PopularGames.

Variable A : Type.

(** [random.shuffle] on the list of indices: the list it leaves. *)
Variable shuffle : list nat -> list nat.

(** [len(popular_games["name"])] *)
Definition total_games_of (popular_games : gmap string (column A))
    : result nat :=
  match popular_games !! "name" with
  | None => Raise KeyError
  | Some (Col cells) => Ret (length cells)
  | Some (NotList (Some n)) => Ret n
  | Some (NotList None) => Raise TypeError
  end.

(** [[popular_games[key][i] for i in selected_indices
      if i < len(popular_games[key])]] *)
Definition selected_cells (cells : list A) (selected_indices : list nat)
    : list A :=
  omap (fun i => cells !! i) selected_indices.

(** Lines 181-187: the shuffled indices, cut to
    [min(num_to_display, total_games)]. *)
Definition selected_indices_of (total_games : nat) (num_to_display : Z)
    : list nat :=
  let all_indices := shuffle (seq 0 total_games) in
  py_slice all_indices 0 (Z.min num_to_display (Z.of_nat total_games)).

(** The branch taken when [popular_games] is not a DataFrame: every list of
    the dict is cut down to the selected indices, every other value becomes
    the empty list. *)
Definition get_random_popular_games (popular_games : gmap string (column A))
    (num_to_display : Z) : result (gmap string (column A)) :=
  total_games <- total_games_of popular_games ;;
  let selected_indices := selected_indices_of total_games num_to_display in
  Ret ((fun v => match v with
                 | Col cells => Col (selected_cells cells selected_indices)
                 | NotList _ => Col []
                 end) <$> popular_games).

End PopularGames.

Arguments total_games_of {A} popular_games.
Arguments selected_cells {A} cells selected_indices.
Arguments get_random_popular_games {A} shuffle popular_games num_to_display.

(** The number of games a call selects out of [total_games]. *)
Definition selected_count (total_games : nat) (num_to_display : Z) : nat :=
  Z.to_nat (if (num_to_display <? 0)%Z
            then Z.max (num_to_display + Z.of_nat total_games) 0
            else Z.min num_to_display (Z.of_nat total_games)).

(** The matrix has a row for every row of the catalog, with one entry per
    row of the catalog. *)
Definition aligned (data : DataFrame) (sim : matrix) : Prop :=
  forall g_idx, (g_idx < length data)%nat ->
    exists view, sim !! g_idx = Some view /\ length view = length data.

(** The game that [game_list_of] builds from a row. *)
Definition game_of (r : row) : game := mk_game (Name r) (Header_image r).

(** ** A catalog to run the program on

    The catalog of the specification's end-to-end example: three games,
    with the dense row [1.0, 0.8, 0.1] for the first. *)

Definition game_a : row := mk_row "a" {["rpg"; "fantasy"]} "a.jpg".
Definition game_b : row := mk_row "b" {["rpg"; "action"]} "b.jpg".
Definition game_c : row := mk_row "c" {["puzzle"]} "c.jpg".

Definition catalog : DataFrame := [game_a; game_b; game_c].

Definition dense : matrix :=
  [ [1; 8 # 10; 1 # 10];
    [8 # 10; 1; 2 # 10];
    [1 # 10; 2 # 10; 1] ].

(** A matrix of raw dot products, whose rows are not scaled to 1. *)
Definition raw_dense : matrix :=
  [ [4; 2; 1];
    [2; 4; 0];
    [1; 0; 4] ].

(** Two games with longer names, to run the fuzzy fallback on. *)
Definition shelf : DataFrame :=
  [ mk_row "portal" {["puzzle"]} "portal.jpg";
    mk_row "doom" {["action"]} "doom.jpg" ].

(** A dict of popular games: three aligned lists, a list that is one entry
    short, and a value that is no list. *)
Definition popular : gmap string (column string) :=
  <["name" := (Col ["portal"; "doom"; "hades"])]>
  (<["steam_url" := (Col ["u/portal"; "u/doom"; "u/hades"])]>
  (<["header_image" := (Col ["portal.jpg"; "doom.jpg"])]>
  (<["source" := NotList (Some 5%nat)]> ∅))).

(** A stand-in for the fuzzy scorer, to run the program where the title is
    not in the catalog: 100 on equal strings, otherwise the share of the
    common prefix; the first best choice wins. *)
Fixpoint common_prefix (a b : string) : nat :=
  match a, b with
  | String x a', String y b' =>
      if Ascii.eqb x y then S (common_prefix a' b') else O
  | _, _ => O
  end.

Definition prefix_ratio (a b : string) : Z :=
  if String.eqb a b then 100%Z
  else (200 * Z.of_nat (common_prefix a b)
        / Z.max 1 (Z.of_nat (String.length a + String.length b)))%Z.

Fixpoint prefix_extractOne (query : string) (choices : list string)
    : option (string * Z) :=
  match choices with
  | [] => None
  | c :: rest =>
      let s := prefix_ratio query c in
      match prefix_extractOne query rest with
      | Some (c', s') => if (s' <=? s)%Z then Some (c, s) else Some (c', s')
      | None => Some (c, s)
      end
  end.

(** * Properties *)

(** ** Exact rationals *)

Lemma Qmake_of_nat (a b : nat) :
  b <> O ->
  Z.of_nat a # Pos.of_nat b == inject_Z (Z.of_nat a) / inject_Z (Z.of_nat b).
Proof.
  intros Hb. rewrite Qmake_Qdiv.
  rewrite <- (positive_nat_Z (Pos.of_nat b)), Nat2Pos.id by exact Hb.
  reflexivity.
Qed.

Lemma Qmake_diag (a : nat) : a <> O -> Z.of_nat a # Pos.of_nat a == 1.
Proof.
  intros Ha. unfold Qeq. simpl.
  rewrite <- (positive_nat_Z (Pos.of_nat a)), Nat2Pos.id by exact Ha. lia.
Qed.

(** ** [jaccard_similarity] *)

Lemma jaccard_similarity_nonempty (set1 set2 : gset string) :
  set1 ∪ set2 ≠ ∅ ->
  jaccard_similarity set1 set2
  = Ret (Z.of_nat (size (set1 ∩ set2)) # Pos.of_nat (size (set1 ∪ set2))).
Proof.
  intros Hne. unfold jaccard_similarity.
  destruct (size (set1 ∪ set2)) as [|u] eqn:Hu.
  - apply size_empty_inv in Hu. apply leibniz_equiv in Hu. contradiction.
  - reflexivity.
Qed.

Lemma jaccard_similarity_empty (set1 set2 : gset string) :
  set1 ∪ set2 = ∅ -> jaccard_similarity set1 set2 = Ret 0.
Proof.
  intros He. unfold jaccard_similarity. rewrite He, size_empty. reflexivity.
Qed.

(** The guard on [union] keeps the division from raising. *)
Lemma jaccard_similarity_returns (set1 set2 : gset string) :
  exists q, jaccard_similarity set1 set2 = Ret q.
Proof.
  destruct (decide (set1 ∪ set2 = ∅)) as [He|Hne].
  - exists 0. now apply jaccard_similarity_empty.
  - eexists. now apply jaccard_similarity_nonempty.
Qed.

(** C7: [jaccard_similarity] returns a value on every pair of tag sets: the
    size of the intersection over the size of the union when the union is
    not empty, and 0 when both sets are empty.  It is 1/3 on {a, b} and
    {b, c}, and 1 on two equal sets that are not empty. *)
Theorem jaccard_similarity_spec (set1 set2 : gset string) :
  (exists q, jaccard_similarity set1 set2 = Ret q /\
     (set1 ∪ set2 ≠ ∅ ->
        q == inject_Z (Z.of_nat (size (set1 ∩ set2)))
             / inject_Z (Z.of_nat (size (set1 ∪ set2)))) /\
     (set1 = ∅ -> set2 = ∅ -> q = 0) /\
     (set1 = set2 -> set1 ≠ ∅ -> q == 1)) /\
  jaccard_similarity {["a"; "b"]} {["b"; "c"]} = Ret (1 # 3).
Proof.
  split; [| vm_compute; reflexivity].
  destruct (decide (set1 ∪ set2 = ∅)) as [He|Hne].
  - exists 0. split; [now apply jaccard_similarity_empty|].
    split; [intros Hu; contradiction|]. split; [reflexivity|].
    intros -> Hs. rewrite union_idemp_L in He. contradiction.
  - eexists. split; [now apply jaccard_similarity_nonempty|].
    assert (Hsz : size (set1 ∪ set2) <> O).
    { intros Hz. apply size_empty_inv, leibniz_equiv in Hz. contradiction. }
    split; [intros _; now apply Qmake_of_nat|].
    split.
    + intros -> ->. rewrite union_idemp_L in Hne. contradiction.
    + intros <- _. rewrite union_idemp_L in Hsz.
      rewrite intersection_idemp_L, union_idemp_L. now apply Qmake_diag.
Qed.

Lemma jaccard_similarity_spec_witness :
  (exists q, jaccard_similarity {["x"]} {["x"]} = Ret q /\
     (({["x"]} : gset string) ∪ {["x"]} ≠ ∅ ->
        q == inject_Z (Z.of_nat (size (({["x"]} : gset string) ∩ {["x"]})))
             / inject_Z (Z.of_nat (size (({["x"]} : gset string) ∪ {["x"]})))) /\
     (({["x"]} : gset string) = ∅ -> ({["x"]} : gset string) = ∅ -> q = 0) /\
     (({["x"]} : gset string) = {["x"]} -> ({["x"]} : gset string) ≠ ∅ -> q == 1)) /\
  jaccard_similarity {["a"; "b"]} {["b"; "c"]} = Ret (1 # 3).
Proof. exact (jaccard_similarity_spec {["x"]} {["x"]}). Defined.

(** C10: [jaccard_similarity] does not depend on the order of its
    arguments. *)
Theorem jaccard_similarity_comm (set1 set2 : gset string) :
  jaccard_similarity set1 set2 = jaccard_similarity set2 set1.
Proof.
  unfold jaccard_similarity.
  assert (Hi : set1 ∩ set2 = set2 ∩ set1) by apply (comm_L _).
  assert (Hu : set1 ∪ set2 = set2 ∪ set1) by apply (comm_L _).
  rewrite Hi, Hu. reflexivity.
Qed.

(** ** Title resolution *)

Lemma title_in_true (title : string) (data : DataFrame) :
  title_in title data = true <-> In title (map Name data).
Proof.
  unfold title_in. rewrite existsb_exists. split.
  - intros [x [Hin Heq]]. apply String.eqb_eq in Heq. now subst.
  - intros Hin. exists title. split; [exact Hin | apply String.eqb_refl].
Qed.

(** [first_index] finds the first row that carries the name. *)
Lemma first_index_spec (title : string) (data : DataFrame) :
  In title (map Name data) ->
  exists g_idx r,
    first_index title data = Some g_idx /\
    data !! g_idx = Some r /\ Name r = title /\
    (forall j r', (j < g_idx)%nat -> data !! j = Some r' -> Name r' <> title).
Proof.
  induction data as [|r0 rest IH]; simpl; [intros []|].
  intros Hin. destruct (String.eqb (Name r0) title) eqn:Heq.
  - apply String.eqb_eq in Heq. exists O, r0.
    repeat split; try assumption. intros j r' Hj. lia.
  - apply String.eqb_neq in Heq.
    destruct Hin as [Hhd|Htl]; [contradiction|].
    destruct (IH Htl) as (g & r & Hg & Hr & Hn & Hfirst).
    exists (S g), r. rewrite Hg. repeat split; try assumption.
    intros [|j] r' Hj Hl; simpl in Hl.
    + now inversion Hl; subst.
    + apply (Hfirst j); [lia | exact Hl].
Qed.

Section ResolverFacts.

Variable extractOne : string -> list string -> option (string * Z).

Lemma resolve_title_exact (threshold : Z) (title : string) (data : DataFrame) :
  title_in (strip (lower title)) data = true ->
  resolve_title extractOne threshold title data
  = Ret (Found (strip (lower title))).
Proof. intros Hin. unfold resolve_title. rewrite Hin. reflexivity. Qed.

Lemma resolve_title_fuzzy (threshold : Z) (title : string) (data : DataFrame) :
  title_in (strip (lower title)) data = false ->
  resolve_title extractOne threshold title data
  = (corr_title <- correct_name extractOne (strip (lower title)) data threshold ;;
     match corr_title with
     | Some corr =>
         if (negb (String.eqb corr "") && title_in corr data)%bool
         then Ret (Found corr) else Ret NotFound
     | None => Ret NotFound
     end).
Proof. intros Hin. unfold resolve_title. rewrite Hin. reflexivity. Qed.

Lemma recommend_game_found (title found : string) (data : DataFrame)
    (g_idx : nat) (n : Z) (alpha : Q) (sim : matrix) :
  resolve_title extractOne default_threshold title data = Ret (Found found) ->
  first_index found data = Some g_idx ->
  recommend_game extractOne title data n alpha sim
  = recommend_at g_idx found data n alpha sim.
Proof.
  intros Hres Hidx. unfold recommend_game, m_bind, lift, g_index.
  rewrite Hres, Hidx. reflexivity.
Qed.

End ResolverFacts.

(** C4: a title whose lowercased, stripped form is a name of the catalog
    resolves to that name, whatever the fuzzy matcher would answer and
    whatever the threshold is, and [recommend_game] continues from the first
    row that carries the name. *)
Theorem exact_match_priority
    (extractOne : string -> list string -> option (string * Z))
    (threshold : Z) (title : string) (data : DataFrame)
    (n : Z) (alpha : Q) (sim : matrix) :
  In (strip (lower title)) (map Name data) ->
  resolve_title extractOne threshold title data
  = Ret (Found (strip (lower title))) /\
  exists g_idx r,
    first_index (strip (lower title)) data = Some g_idx /\
    data !! g_idx = Some r /\ Name r = strip (lower title) /\
    recommend_game extractOne title data n alpha sim
    = recommend_at g_idx (strip (lower title)) data n alpha sim.
Proof.
  intros Hin.
  assert (Htin : title_in (strip (lower title)) data = true)
    by now apply title_in_true.
  split; [now apply resolve_title_exact|].
  destruct (first_index_spec _ _ Hin) as (g & r & Hg & Hr & Hn & _).
  exists g, r. repeat split; try assumption.
  apply recommend_game_found; [now apply resolve_title_exact | exact Hg].
Qed.

(** The matcher of this run prefers another game with the top score, and
    none at all would make the fallback raise; the exact name still wins. *)
Lemma exact_match_priority_witness :
  resolve_title (fun _ _ => Some ("b", 100%Z)) 0 " A " catalog
  = Ret (Found (strip (lower " A "))) /\
  exists g_idx r,
    first_index (strip (lower " A ")) catalog = Some g_idx /\
    catalog !! g_idx = Some r /\ Name r = strip (lower " A ") /\
    recommend_game (fun _ _ => Some ("b", 100%Z)) " A " catalog 2 (3 # 10) dense
    = recommend_at g_idx (strip (lower " A ")) catalog 2 (3 # 10) dense.
Proof.
  apply (exact_match_priority (fun _ _ => Some ("b", 100%Z)) 0 " A " catalog
           2 (3 # 10) dense).
  simpl. left. reflexivity.
Defined.

(** C5: for a title that is not a name of the catalog, whose best fuzzy
    match is [best_match] with [score]: below the threshold the title is not
    found, and [recommend_game] (threshold 80) returns the message with an
    empty list and raises nothing; at or above the threshold the entry of
    [best_match], a name of the catalog that is not the empty string, is the
    one used. *)
Theorem threshold_gating
    (extractOne : string -> list string -> option (string * Z))
    (threshold : Z) (title : string) (data : DataFrame)
    (best_match : string) (score : Z) (n : Z) (alpha : Q) (sim : matrix) :
  title_in (strip (lower title)) data = false ->
  extractOne (strip (lower title)) (map Name data) = Some (best_match, score) ->
  ((score < threshold)%Z ->
     resolve_title extractOne threshold title data = Ret NotFound) /\
  ((score < default_threshold)%Z ->
     recommend_game extractOne title data n alpha sim
     = (Ret (not_found_message, []), sim)) /\
  ((threshold <= score)%Z -> best_match <> "" ->
   In best_match (map Name data) ->
     resolve_title extractOne threshold title data = Ret (Found best_match)) /\
  ((default_threshold <= score)%Z -> best_match <> "" ->
   In best_match (map Name data) ->
     exists g_idx r,
       first_index best_match data = Some g_idx /\
       data !! g_idx = Some r /\ Name r = best_match /\
       recommend_game extractOne title data n alpha sim
       = recommend_at g_idx best_match data n alpha sim).
Proof.
  intros Hnot Hbest.
  assert (Hlow : forall th, (score < th)%Z ->
            resolve_title extractOne th title data = Ret NotFound).
  { intros th Hlt. rewrite resolve_title_fuzzy by exact Hnot.
    unfold correct_name. rewrite Hbest.
    destruct (Z.leb_spec th score); [lia | reflexivity]. }
  assert (Hhigh : forall th, (th <= score)%Z -> best_match <> "" ->
            In best_match (map Name data) ->
            resolve_title extractOne th title data = Ret (Found best_match)).
  { intros th Hle Hne Hin. rewrite resolve_title_fuzzy by exact Hnot.
    unfold correct_name. rewrite Hbest.
    destruct (Z.leb_spec th score); [|lia]. simpl.
    apply String.eqb_neq in Hne. rewrite Hne.
    apply title_in_true in Hin. rewrite Hin. reflexivity. }
  repeat split.
  - apply Hlow.
  - intros Hlt. unfold recommend_game, m_bind, lift.
    rewrite (Hlow _ Hlt). reflexivity.
  - apply Hhigh.
  - intros Hle Hne Hin.
    destruct (first_index_spec _ _ Hin) as (g & r & Hg & Hr & Hn & _).
    exists g, r. repeat split; try assumption.
    apply recommend_game_found; [now apply Hhigh | exact Hg].
Qed.

Example fuzzy_below_threshold :
  prefix_extractOne "zzz" (map Name shelf) = Some ("portal", 0%Z) /\
  recommend_game prefix_extractOne "zzz" shelf 5 (3 # 10) dense
  = (Ret (not_found_message, []), dense).
Proof. vm_compute. split; reflexivity. Qed.

Example fuzzy_above_threshold :
  prefix_extractOne "porta" (map Name shelf) = Some ("portal", 90%Z) /\
  resolve_title prefix_extractOne default_threshold " Porta" shelf
  = Ret (Found "portal").
Proof. vm_compute. split; reflexivity. Qed.

Lemma threshold_gating_witness :
  ((90 < default_threshold)%Z ->
     resolve_title prefix_extractOne default_threshold " Porta" shelf
     = Ret NotFound) /\
  ((90 < default_threshold)%Z ->
     recommend_game prefix_extractOne " Porta" shelf 5 (3 # 10) dense
     = (Ret (not_found_message, []), dense)) /\
  ((default_threshold <= 90)%Z -> "portal" <> "" ->
   In "portal" (map Name shelf) ->
     resolve_title prefix_extractOne default_threshold " Porta" shelf
     = Ret (Found "portal")) /\
  ((default_threshold <= 90)%Z -> "portal" <> "" ->
   In "portal" (map Name shelf) ->
     exists g_idx r,
       first_index "portal" shelf = Some g_idx /\
       shelf !! g_idx = Some r /\ Name r = "portal" /\
       recommend_game prefix_extractOne " Porta" shelf 5 (3 # 10) dense
       = recommend_at g_idx "portal" shelf 5 (3 # 10) dense).
Proof.
  apply (threshold_gating prefix_extractOne default_threshold " Porta" shelf
           "portal" 90 5 (3 # 10) dense); vm_compute; reflexivity.
Defined.

(** C9: on an empty catalog the matcher has no choice to return, and
    unpacking its answer in [correct_name] raises [TypeError]: the title is
    not reported as not found. *)
Theorem empty_catalog_raises
    (extractOne : string -> list string -> option (string * Z))
    (threshold : Z) (title : string) (n : Z) (alpha : Q) (sim : matrix) :
  extractOne (strip (lower title)) [] = None ->
  resolve_title extractOne threshold title [] = Raise TypeError /\
  recommend_game extractOne title [] n alpha sim = (Raise TypeError, sim).
Proof.
  intros Hnone.
  assert (Hres : forall th, resolve_title extractOne th title [] = Raise TypeError).
  { intros th. unfold resolve_title, correct_name. simpl.
    rewrite Hnone. reflexivity. }
  split; [apply Hres|].
  unfold recommend_game, m_bind, lift. rewrite Hres. reflexivity.
Qed.

Lemma empty_catalog_raises_witness :
  resolve_title prefix_extractOne default_threshold "portal" [] = Raise TypeError /\
  recommend_game prefix_extractOne "portal" [] 5 (3 # 10) dense
  = (Raise TypeError, dense).
Proof.
  apply (empty_catalog_raises prefix_extractOne default_threshold "portal"
           5 (3 # 10) dense).
  reflexivity.
Defined.

(** ** Arrays: maximum, normalization, sum *)

Lemma fold_left_Qmax_zero (xs : list Q) (x : Q) :
  x == 0 -> all_zero xs -> fold_left Qmax xs x == 0.
Proof.
  revert x. induction xs as [|y xs IH]; intros x Hx Hall; simpl; [exact Hx|].
  inversion Hall as [|? ? Hy Hxs]; subst.
  apply IH; [|exact Hxs].
  rewrite Q.max_l; [exact Hx|]. rewrite Hx, Hy. apply Qle_refl.
Qed.

Lemma Qlt_bool_zero (m : Q) : m == 0 -> Qlt_bool 0 m = false.
Proof.
  intros Hm. unfold Qlt_bool.
  assert (H : Qle_bool m 0 = true).
  { apply Qle_bool_iff. rewrite Hm. apply Qle_refl. }
  rewrite H. reflexivity.
Qed.

Lemma np_max_zero (v : list Q) :
  v <> [] -> all_zero v -> exists m, np_max v = Ret m /\ m == 0.
Proof.
  destruct v as [|x xs]; [congruence|]. intros _ Hall.
  inversion Hall; subst. eexists. split; [reflexivity|].
  now apply fold_left_Qmax_zero.
Qed.

Lemma normalize_returns (v : list Q) :
  v <> [] -> exists w, normalize v = Ret w /\ length w = length v.
Proof.
  destruct v as [|x xs]; [congruence|]. intros _.
  unfold normalize, np_max, bind.
  destruct (Qlt_bool 0 (fold_left Qmax xs x)); eexists; split;
    try reflexivity.
  apply length_map.
Qed.

(** A vector of zeros is left as it is. *)
Lemma normalize_zero (v : list Q) :
  v <> [] -> all_zero v -> normalize v = Ret v.
Proof.
  intros Hne Hall. destruct (np_max_zero v Hne Hall) as (m & Hm & Hz).
  unfold normalize. rewrite Hm. simpl. rewrite (Qlt_bool_zero m Hz).
  reflexivity.
Qed.

Lemma zip_with_scaled (a b : Q) (c j : list Q) :
  zip_with Qplus (np_scale a c) (np_scale b j)
  = zip_with (fun x y => a * x + b * y) c j.
Proof.
  revert j. induction c as [|x c IH]; intros [|y j]; simpl; try reflexivity.
  now rewrite IH.
Qed.

Lemma final_score_same_length (alpha : Q) (cosine jaccard : list Q) :
  length cosine = length jaccard ->
  final_score alpha cosine jaccard
  = Ret (zip_with (fun c j => alpha * c + (1 - alpha) * j) cosine jaccard).
Proof.
  intros Hlen. unfold final_score, np_add, np_scale.
  rewrite !length_map, Hlen, Nat.eqb_refl.
  f_equal. apply zip_with_scaled.
Qed.

Lemma length_combined (alpha : Q) (cosine jaccard : list Q) :
  length cosine = length jaccard ->
  length (zip_with (fun c j => alpha * c + (1 - alpha) * j) cosine jaccard)
  = length jaccard.
Proof.
  revert jaccard. induction cosine as [|x c IH]; intros [|y j] Hlen;
    simpl in *; try congruence.
  f_equal. apply IH. congruence.
Qed.

(** ** The order of the scores *)

Lemma insert_sorted_perm (p : nat * Q) (l : list (nat * Q)) :
  Permutation (insert_sorted p l) (p :: l).
Proof.
  induction l as [|q l IH]; simpl; [apply Permutation_refl|].
  destruct (Qle_bool (snd p) (snd q)); [apply Permutation_refl|].
  eapply Permutation_trans; [apply perm_skip, IH | apply perm_swap].
Qed.

Lemma sort_perm (l : list (nat * Q)) :
  Permutation (fold_right insert_sorted [] l) l.
Proof.
  induction l as [|p l IH]; simpl; [apply Permutation_refl|].
  eapply Permutation_trans; [apply insert_sorted_perm | now apply perm_skip].
Qed.

Lemma map_fst_combine_seq (v : list Q) (start : nat) :
  map fst (combine (seq start (length v)) v) = seq start (length v).
Proof.
  revert start. induction v as [|x v IH]; intros start; simpl; [reflexivity|].
  now rewrite IH.
Qed.

(** [argsort] lists every position once. *)
Lemma argsort_perm (v : list Q) :
  Permutation (argsort v) (seq 0 (length v)).
Proof.
  unfold argsort. rewrite <- (map_fst_combine_seq v 0) at 2.
  apply Permutation_map, sort_perm.
Qed.

Lemma py_slice_In {A : Type} (l : list A) (start stop : Z) (x : A) :
  In x (py_slice l start stop) -> In x l.
Proof.
  unfold py_slice. intros Hin.
  set (lo := Z.to_nat (py_clamp (Z.of_nat (length l)) start)) in *.
  set (k := Z.to_nat _) in Hin.
  rewrite <- (firstn_skipn lo l). apply in_or_app. right.
  rewrite <- (firstn_skipn k (skipn lo l)). apply in_or_app. now left.
Qed.

Lemma recomm_idx_bound (final : list Q) (n : Z) (i : nat) :
  In i (recomm_idx final n) -> (i < length final)%nat.
Proof.
  unfold recomm_idx. intros Hin. apply py_slice_In in Hin.
  apply in_rev in Hin.
  apply (Permutation_in _ (argsort_perm final)) in Hin.
  apply in_seq in Hin. lia.
Qed.

(** The slice [order[1:n+1]] of a non-empty order holds [min n (N - 1)]
    positions when [n] is not negative. *)
Lemma length_recomm_idx (final : list Q) (n : Z) :
  (0 <= n)%Z -> final <> [] ->
  length (recomm_idx final n)
  = Nat.min (Z.to_nat n) (length final - 1).
Proof.
  intros Hn Hne. unfold recomm_idx, py_slice.
  rewrite length_firstn, length_skipn, length_rev.
  rewrite (Permutation_length (argsort_perm final)), length_seq.
  assert (Hlen : (0 < length final)%nat).
  { destruct final; [congruence | simpl; lia]. }
  unfold py_clamp.
  destruct (Z.ltb_spec 1 0); [lia|].
  destruct (Z.ltb_spec (n + 1) 0); lia.
Qed.

(** ** The run after resolution *)

Lemma first_index_bound (title : string) (data : DataFrame) (g_idx : nat) :
  first_index title data = Some g_idx -> (g_idx < length data)%nat.
Proof.
  revert g_idx. induction data as [|r rest IH]; intros g; simpl; [discriminate|].
  destruct (String.eqb (Name r) title).
  - intros [= <-]. lia.
  - destruct (first_index title rest) as [g'|]; simpl; [|discriminate].
    intros [= <-]. specialize (IH g' eq_refl). lia.
Qed.

Lemma jaccard_loop_returns (data : DataFrame) (g_idx idx : nat) (rows : list row) :
  (g_idx < length data)%nat ->
  exists scores,
    jaccard_loop data g_idx idx rows = Ret scores /\
    length scores = length rows.
Proof.
  intros Hg. destruct (lookup_lt_is_Some_2 data g_idx Hg) as [rg Hrg].
  revert idx. induction rows as [|r rest IH]; intros idx; simpl.
  - exists []. split; reflexivity.
  - destruct (IH (S idx)) as (scores & Hloop & Hlen). rewrite Hloop.
    destruct (Nat.eqb idx g_idx); simpl.
    + exists (0 :: scores). split; [reflexivity | simpl; congruence].
    + unfold tags_at. rewrite Hrg. simpl.
      destruct (jaccard_similarity_returns (Tags rg) (Tags r)) as [q Hq].
      rewrite Hq. simpl.
      exists (q :: scores). split; [reflexivity | simpl; congruence].
Qed.

Lemma jaccard_scores_returns (data : DataFrame) (g_idx : nat) :
  (g_idx < length data)%nat ->
  exists scores,
    jaccard_scores g_idx data = Ret scores /\ length scores = length data.
Proof. intros Hg. now apply jaccard_loop_returns. Qed.

Lemma game_list_of_returns (data : DataFrame) (idxs : list nat) :
  (forall i, In i idxs -> (i < length data)%nat) ->
  exists games,
    game_list_of data idxs = Ret games /\ length games = length idxs.
Proof.
  induction idxs as [|i idxs IH]; intros Hall; simpl.
  - exists []. split; reflexivity.
  - destruct (lookup_lt_is_Some_2 data i (Hall i (or_introl eq_refl)))
      as [r Hr].
    rewrite Hr.
    destruct IH as (games & Hg & Hlen);
      [intros j Hj; apply Hall; now right|].
    rewrite Hg. simpl. eexists. split; [reflexivity | simpl; congruence].
Qed.

Lemma nonempty_of_length {A : Type} (l : list A) (k : nat) :
  (k < length l)%nat -> l <> [].
Proof. destruct l; simpl; [lia | congruence]. Qed.

(** What [cosine_scores] leaves in the matrix: row [g_idx] holds the
    scores it returned, every other row is as before. *)
Lemma cosine_scores_returns (g_idx : nat) (sim : matrix) (view : list Q) :
  sim !! g_idx = Some view -> view <> [] ->
  exists cosine,
    cosine_scores g_idx sim = (Ret cosine, <[g_idx := cosine]> sim) /\
    length cosine = length view.
Proof.
  intros Hrow Hne. destruct view as [|x xs]; [congruence|].
  unfold cosine_scores, m_bind, get_row, lift, set_row, m_ret.
  rewrite Hrow. simpl.
  destruct (Qlt_bool 0 (fold_left Qmax xs x)).
  - eexists. split; [reflexivity|]. simpl. f_equal. apply length_map.
  - exists (x :: xs). split; [|reflexivity].
    now rewrite list_insert_id.
Qed.

(** A zero row is read and not written. *)
Lemma cosine_scores_zero (g_idx : nat) (sim : matrix) (view : list Q) :
  sim !! g_idx = Some view -> view <> [] -> all_zero view ->
  cosine_scores g_idx sim = (Ret view, sim).
Proof.
  intros Hrow Hne Hall. destruct (np_max_zero view Hne Hall) as (m & Hm & Hz).
  unfold cosine_scores, m_bind, get_row, lift, m_ret.
  rewrite Hrow, Hm, (Qlt_bool_zero m Hz). reflexivity.
Qed.

(** With a matrix row as long as the catalog, the run from a valid
    position returns, for every [n_recommendation] and every [alpha]: the
    scores are [alpha * cosine + (1 - alpha) * jaccard] and the games are
    those at [recomm_idx]. *)
Lemma recommend_at_returns (g_idx : nat) (title : string) (data : DataFrame)
    (n : Z) (alpha : Q) (sim : matrix) (view : list Q) :
  (g_idx < length data)%nat ->
  sim !! g_idx = Some view -> length view = length data ->
  exists scores jaccard cosine games,
    jaccard_scores g_idx data = Ret scores /\
    normalize scores = Ret jaccard /\
    cosine_scores g_idx sim = (Ret cosine, <[g_idx := cosine]> sim) /\
    length jaccard = length data /\ length cosine = length data /\
    let final := zip_with (fun c j => alpha * c + (1 - alpha) * j)
                   cosine jaccard in
    final_scores_at g_idx data alpha sim
    = (Ret final, <[g_idx := cosine]> sim) /\
    game_list_of data (recomm_idx final n) = Ret games /\
    length games = length (recomm_idx final n) /\
    recommend_at g_idx title data n alpha sim
    = (Ret (output_message title, games), <[g_idx := cosine]> sim).
Proof.
  intros Hg Hrow Hlen.
  destruct (jaccard_scores_returns data g_idx Hg) as (scores & Hs & Hsl).
  assert (Hsne : scores <> []).
  { apply (nonempty_of_length scores g_idx). lia. }
  destruct (normalize_returns scores Hsne) as (jaccard & Hj & Hjl).
  assert (Hvne : view <> []).
  { apply (nonempty_of_length view g_idx). lia. }
  destruct (cosine_scores_returns g_idx sim view Hrow Hvne)
    as (cosine & Hc & Hcl).
  assert (Hcj : length cosine = length jaccard) by congruence.
  pose proof (final_score_same_length alpha cosine jaccard Hcj) as Hf.
  pose proof (length_combined alpha cosine jaccard Hcj) as Hfl.
  destruct (game_list_of_returns data
              (recomm_idx (zip_with (fun c j => alpha * c + (1 - alpha) * j)
                             cosine jaccard) n))
    as (games & Hgames & Hgl).
  { intros i Hi. apply recomm_idx_bound in Hi. lia. }
  exists scores, jaccard, cosine, games.
  assert (Hfinal : final_scores_at g_idx data alpha sim
                   = (Ret (zip_with (fun c j => alpha * c + (1 - alpha) * j)
                             cosine jaccard), <[g_idx := cosine]> sim)).
  { unfold final_scores_at, m_bind, lift. rewrite Hs, Hj, Hc, Hf. reflexivity. }
  repeat split; try assumption; try congruence.
  unfold recommend_at, m_bind, lift, m_ret.
  rewrite Hfinal, Hgames. reflexivity.
Qed.

(** For [n_recommendation] that is not negative the list holds
    [min n (N - 1)] games, in descending order of score. *)
Lemma recommend_at_length (g_idx : nat) (title : string) (data : DataFrame)
    (n : Z) (alpha : Q) (sim : matrix) (view : list Q) :
  (g_idx < length data)%nat ->
  sim !! g_idx = Some view -> length view = length data -> (0 <= n)%Z ->
  exists games sim',
    recommend_at g_idx title data n alpha sim
    = (Ret (output_message title, games), sim') /\
    length games = Nat.min (Z.to_nat n) (length data - 1).
Proof.
  intros Hg Hrow Hlen Hn.
  destruct (recommend_at_returns g_idx title data n alpha sim view Hg Hrow Hlen)
    as (scores & jaccard & cosine & games & _ & _ & _ & Hjl & Hcl & Hrest).
  cbv zeta in Hrest. destruct Hrest as (_ & _ & Hgl & Hrun).
  exists games, (<[g_idx := cosine]> sim). split; [exact Hrun|].
  rewrite Hgl, length_recomm_idx; [| exact Hn |].
  - rewrite length_combined by congruence. now rewrite Hjl.
  - apply (nonempty_of_length _ g_idx).
    rewrite length_combined by congruence. lia.
Qed.

(** Whatever the run does, the rows of the matrix other than [g_idx] are
    as they were. *)
Lemma recommend_at_frame (g_idx : nat) (title : string) (data : DataFrame)
    (n : Z) (alpha : Q) (sim : matrix) (j : nat) :
  j <> g_idx ->
  snd (recommend_at g_idx title data n alpha sim) !! j = sim !! j.
Proof.
  intros Hj.
  unfold recommend_at, final_scores_at, cosine_scores, m_bind, lift, m_ret,
    get_row, set_row.
  destruct (jaccard_scores g_idx data) as [scores|]; [|reflexivity].
  destruct (normalize scores) as [jaccard|]; [|reflexivity].
  destruct (sim !! g_idx) as [view|]; [|reflexivity].
  destruct (np_max view) as [m|]; [|reflexivity].
  destruct (Qlt_bool 0 m).
  - destruct (final_score alpha _ jaccard) as [final|]; simpl.
    + destruct (game_list_of data _); simpl;
        apply list_lookup_insert_ne; congruence.
    + apply list_lookup_insert_ne; congruence.
  - destruct (final_score alpha view jaccard) as [final|]; simpl;
      [|reflexivity].
    destruct (game_list_of data _); reflexivity.
Qed.

Lemma resolve_title_found_in
    (extractOne : string -> list string -> option (string * Z))
    (threshold : Z) (title found : string) (data : DataFrame) :
  resolve_title extractOne threshold title data = Ret (Found found) ->
  In found (map Name data).
Proof.
  unfold resolve_title.
  destruct (title_in (strip (lower title)) data) eqn:Hin; simpl.
  - intros [= <-]. now apply title_in_true.
  - destruct (correct_name extractOne _ data threshold) as [[corr|]|e];
      simpl; try discriminate.
    destruct (String.eqb corr ""); simpl; [discriminate|].
    destruct (title_in corr data) eqn:Hc; [|discriminate].
    intros [= <-]. now apply title_in_true.
Qed.

(** ** Arguments outside their range *)

Lemma recomm_idx_none (final : list Q) (n : Z) :
  n = 0%Z \/ n = (-1)%Z -> recomm_idx final n = [].
Proof.
  intros Hn. unfold recomm_idx, py_slice.
  set (len := Z.of_nat (length (rev (argsort final)))).
  assert (Hlen : (0 <= len)%Z) by (unfold len; lia).
  assert (Hk : Z.to_nat (py_clamp len (n + 1) - py_clamp len 1) = O).
  { unfold py_clamp. destruct (Z.ltb_spec 1 0); [lia|].
    destruct (Z.ltb_spec (n + 1) 0); lia. }
  rewrite Hk. reflexivity.
Qed.

(** C6, as the code has it: [recommend_game] checks neither
    [n_recommendation] nor [alpha].  With [n < 1] or [alpha] outside [0, 1],
    a call whose title resolves, on a matrix row as long as the catalog,
    returns the usual message and the games at [order[1:n+1]] for the scores
    [alpha * cosine + (1 - alpha) * jaccard]; the list is empty for [n] 0
    or -1. *)
Theorem no_argument_validation
    (extractOne : string -> list string -> option (string * Z))
    (title found : string) (data : DataFrame) (n : Z) (alpha : Q)
    (sim : matrix) (g_idx : nat) (view : list Q) :
  resolve_title extractOne default_threshold title data = Ret (Found found) ->
  first_index found data = Some g_idx ->
  sim !! g_idx = Some view -> length view = length data ->
  (n < 1)%Z \/ alpha < 0 \/ 1 < alpha ->
  exists final games sim',
    final_scores_at g_idx data alpha sim = (Ret final, sim') /\
    game_list_of data (recomm_idx final n) = Ret games /\
    recommend_game extractOne title data n alpha sim
    = (Ret (output_message found, games), sim') /\
    (n = 0%Z \/ n = (-1)%Z -> games = []).
Proof.
  intros Hres Hidx Hrow Hlen _.
  pose proof (first_index_bound _ _ _ Hidx) as Hg.
  destruct (recommend_at_returns g_idx found data n alpha sim view Hg Hrow Hlen)
    as (scores & jaccard & cosine & games & _ & _ & _ & _ & _ & Hrest).
  cbv zeta in Hrest. destruct Hrest as (Hfinal & Hgames & _ & Hrun).
  eexists _, games, _. split; [exact Hfinal|]. split; [exact Hgames|].
  split.
  - rewrite (recommend_game_found extractOne title found data g_idx n alpha sim
               Hres Hidx).
    exact Hrun.
  - intros Hn. rewrite (recomm_idx_none _ n Hn) in Hgames.
    simpl in Hgames. congruence.
Qed.

Lemma no_argument_validation_witness :
  exists final games sim',
    final_scores_at 0 catalog 2 dense = (Ret final, sim') /\
    game_list_of catalog (recomm_idx final 0) = Ret games /\
    recommend_game prefix_extractOne "a" catalog 0 2 dense
    = (Ret (output_message "a", games), sim') /\
    (0%Z = 0%Z \/ 0%Z = (-1)%Z -> games = []).
Proof.
  apply (no_argument_validation prefix_extractOne "a" "a" catalog 0 2 dense
           O [1; 8 # 10; 1 # 10]); try reflexivity.
  left. lia.
Defined.

(** C6, as the claim has it, fails: with [n = 0] the call returns the
    message and an empty list, and with [alpha = 2] it returns two games;
    neither call raises. *)
Lemma invalid_arguments_accepted :
  fst (recommend_game prefix_extractOne "a" catalog 0 (3 # 10) dense)
  = Ret (output_message "a", []) /\
  fst (recommend_game prefix_extractOne "a" catalog 2 2 dense)
  = Ret (output_message "a", [mk_game "b" "b.jpg"; mk_game "c" "c.jpg"]).
Proof. vm_compute. split; reflexivity. Qed.

(** ** Vectors of zeros *)

(** C8: when the tag scores of the resolved game are all zero, or its
    matrix row is all zero, that vector is used as it is, the other one is
    normalized as usual, the combined scores are
    [alpha * cosine + (1 - alpha) * jaccard], and the call returns. *)
Theorem degenerate_normalization
    (extractOne : string -> list string -> option (string * Z))
    (title found : string) (data : DataFrame) (n : Z) (alpha : Q)
    (sim : matrix) (g_idx : nat) (view tags : list Q) :
  resolve_title extractOne default_threshold title data = Ret (Found found) ->
  first_index found data = Some g_idx ->
  sim !! g_idx = Some view -> length view = length data ->
  jaccard_scores g_idx data = Ret tags ->
  all_zero tags \/ all_zero view ->
  exists jaccard cosine games,
    normalize tags = Ret jaccard /\
    (all_zero tags -> jaccard = tags) /\
    cosine_scores g_idx sim = (Ret cosine, <[g_idx := cosine]> sim) /\
    (all_zero view -> cosine = view /\ <[g_idx := cosine]> sim = sim) /\
    final_scores_at g_idx data alpha sim
    = (Ret (zip_with (fun c j => alpha * c + (1 - alpha) * j) cosine jaccard),
       <[g_idx := cosine]> sim) /\
    recommend_game extractOne title data n alpha sim
    = (Ret (output_message found, games), <[g_idx := cosine]> sim).
Proof.
  intros Hres Hidx Hrow Hlen Htags _.
  pose proof (first_index_bound _ _ _ Hidx) as Hg.
  destruct (recommend_at_returns g_idx found data n alpha sim view Hg Hrow Hlen)
    as (scores & jaccard & cosine & games & Hs & Hj & Hc & Hjl & Hcl & Hrest).
  cbv zeta in Hrest. destruct Hrest as (Hfinal & _ & _ & Hrun).
  assert (scores = tags) by congruence. subst scores.
  assert (Htne : tags <> []).
  { apply (nonempty_of_length tags g_idx).
    destruct (jaccard_scores_returns data g_idx Hg) as (t & Ht & Htl).
    assert (t = tags) by congruence. subst t. lia. }
  assert (Hvne : view <> []).
  { apply (nonempty_of_length view g_idx). lia. }
  exists jaccard, cosine, games.
  split; [exact Hj|]. split.
  { intros Hz. rewrite (normalize_zero tags Htne Hz) in Hj. congruence. }
  split; [exact Hc|]. split.
  { intros Hz. rewrite (cosine_scores_zero g_idx sim view Hrow Hvne Hz) in Hc.
    inversion Hc as [[Hv Hm]]. split; [reflexivity|]. now rewrite <- Hm. }
  split; [exact Hfinal|].
  rewrite (recommend_game_found extractOne title found data g_idx n alpha sim
             Hres Hidx).
  exact Hrun.
Qed.

(** The game "c" shares no tag with the others: its tag scores are zero. *)
Lemma degenerate_normalization_witness :
  exists jaccard cosine games,
    normalize [0 # 3; 0 # 3; 0] = Ret jaccard /\
    (all_zero [0 # 3; 0 # 3; 0] -> jaccard = [0 # 3; 0 # 3; 0]) /\
    cosine_scores 2 dense = (Ret cosine, <[2%nat := cosine]> dense) /\
    (all_zero [1 # 10; 2 # 10; 1] ->
       cosine = [1 # 10; 2 # 10; 1] /\ <[2%nat := cosine]> dense = dense) /\
    final_scores_at 2 catalog (3 # 10) dense
    = (Ret (zip_with (fun c j => (3 # 10) * c + (1 - (3 # 10)) * j)
              cosine jaccard),
       <[2%nat := cosine]> dense) /\
    recommend_game prefix_extractOne "c" catalog 2 (3 # 10) dense
    = (Ret (output_message "c", games), <[2%nat := cosine]> dense).
Proof.
  apply (degenerate_normalization prefix_extractOne "c" "c" catalog 2 (3 # 10)
           dense 2 [1 # 10; 2 # 10; 1] [0 # 3; 0 # 3; 0]); try reflexivity.
  left. repeat constructor.
Defined.

(** A row of zeros: nothing is divided, nothing is written. *)
Example zero_row_run :
  recommend_game prefix_extractOne "c" catalog 2 (3 # 10)
    [[1; 8 # 10; 0]; [8 # 10; 1; 0]; [0; 0; 0]]
  = (Ret (output_message "c", [mk_game "b" "b.jpg"; mk_game "a" "a.jpg"]),
     [[1; 8 # 10; 0]; [8 # 10; 1; 0]; [0; 0; 0]]).
Proof. vm_compute. reflexivity. Qed.

(** ** [argsort] sorts *)

Lemma insert_sorted_sorted (p : nat * Q) (l : list (nat * Q)) :
  StronglySorted (fun a b => snd a <= snd b) l ->
  StronglySorted (fun a b => snd a <= snd b) (insert_sorted p l).
Proof.
  induction l as [|q l IH]; intros Hs; simpl.
  - constructor; constructor.
  - apply StronglySorted_inv in Hs. destruct Hs as [Hl Hq].
    destruct (Qle_bool (snd p) (snd q)) eqn:Hle.
    + apply Qle_bool_iff in Hle. constructor.
      * constructor; assumption.
      * constructor; [exact Hle|].
        eapply List.Forall_impl; [|exact Hq].
        intros r Hr. simpl in Hr. eapply Qle_trans; eassumption.
    + assert (Hlt : snd q <= snd p).
      { apply Qlt_le_weak, Qnot_le_lt. intros H.
        apply Qle_bool_iff in H. congruence. }
      constructor; [now apply IH|].
      apply (Permutation_Forall (Permutation_sym (insert_sorted_perm p l))).
      constructor; assumption.
Qed.

Lemma sort_sorted (l : list (nat * Q)) :
  StronglySorted (fun a b => snd a <= snd b) (fold_right insert_sorted [] l).
Proof.
  induction l as [|p l IH]; simpl; [constructor|].
  now apply insert_sorted_sorted.
Qed.

Lemma combine_seq_nth (v : list Q) (start i : nat) (q : Q) :
  In (i, q) (combine (seq start (length v)) v) ->
  (start <= i)%nat /\ nth (i - start) v 0 = q.
Proof.
  revert start. induction v as [|x v IH]; intros start; simpl; [intros []|].
  intros [Heq|Hin].
  - inversion Heq; subst. rewrite Nat.sub_diag. split; [lia | reflexivity].
  - destruct (IH (S start) Hin) as [Hle Hnth]. split; [lia|].
    replace (i - start)%nat with (S (i - S start)) by lia. exact Hnth.
Qed.

Lemma StronglySorted_map_fst (v : list Q) (l : list (nat * Q)) :
  (forall p, In p l -> nth (fst p) v 0 = snd p) ->
  StronglySorted (fun a b => snd a <= snd b) l ->
  ascending v (map fst l).
Proof.
  unfold ascending. induction l as [|p l IH]; intros Hkey Hs; simpl.
  - constructor.
  - apply StronglySorted_inv in Hs. destruct Hs as [Hl Hp].
    constructor.
    + apply IH; [|exact Hl]. intros q Hq. apply Hkey. now right.
    + apply List.Forall_forall. intros i Hi. apply in_map_iff in Hi.
      destruct Hi as (q & <- & Hq).
      rewrite (Hkey p (or_introl eq_refl)), (Hkey q (or_intror Hq)).
      rewrite List.Forall_forall in Hp. now apply Hp.
Qed.

(** The positions [argsort] returns are in ascending order of score. *)
Lemma argsort_ascending (v : list Q) : ascending v (argsort v).
Proof.
  unfold argsort. apply StronglySorted_map_fst; [|apply sort_sorted].
  intros [i q] Hin. simpl.
  apply (Permutation_in _ (sort_perm _)) in Hin.
  apply combine_seq_nth in Hin. destruct Hin as [_ Hnth].
  now rewrite Nat.sub_0_r in Hnth.
Qed.

Lemma StronglySorted_snoc {A : Type} (R : A -> A -> Prop) (l : list A) (x : A) :
  StronglySorted R l -> Forall (fun y => R y x) l ->
  StronglySorted R (l ++ [x]).
Proof.
  induction l as [|a l IH]; intros Hs Hall; simpl.
  - constructor; constructor.
  - apply StronglySorted_inv in Hs. destruct Hs as [Hl Ha].
    inversion Hall; subst. constructor; [now apply IH|].
    apply List.Forall_app. split; [exact Ha | now constructor].
Qed.

Lemma StronglySorted_rev {A : Type} (R : A -> A -> Prop) (l : list A) :
  StronglySorted R l -> StronglySorted (fun x y => R y x) (rev l).
Proof.
  induction l as [|a l IH]; intros Hs; simpl; [constructor|].
  apply StronglySorted_inv in Hs. destruct Hs as [Hl Ha].
  apply StronglySorted_snoc; [now apply IH|].
  apply List.Forall_forall. intros y Hy. apply in_rev in Hy.
  rewrite List.Forall_forall in Ha. now apply Ha.
Qed.

Lemma StronglySorted_skipn {A : Type} (R : A -> A -> Prop) (k : nat) (l : list A) :
  StronglySorted R l -> StronglySorted R (skipn k l).
Proof.
  revert l. induction k as [|k IH]; intros [|a l] Hs; simpl; try assumption.
  apply IH. now apply StronglySorted_inv in Hs.
Qed.

Lemma StronglySorted_firstn {A : Type} (R : A -> A -> Prop) (k : nat) (l : list A) :
  StronglySorted R l -> StronglySorted R (firstn k l).
Proof.
  revert l. induction k as [|k IH]; intros [|a l] Hs; simpl; try constructor.
  - apply IH. now apply StronglySorted_inv in Hs.
  - apply StronglySorted_inv in Hs. destruct Hs as [_ Ha].
    apply List.Forall_forall. intros y Hy.
    rewrite List.Forall_forall in Ha. apply Ha.
    rewrite <- (firstn_skipn k l). apply in_or_app. now left.
Qed.

(** The recommended positions are in descending order of score. *)
Lemma recomm_idx_descending (final : list Q) (n : Z) :
  descending final (recomm_idx final n).
Proof.
  unfold descending, recomm_idx, py_slice.
  apply StronglySorted_firstn, StronglySorted_skipn.
  apply (StronglySorted_rev (fun i j => nth i final 0 <= nth j final 0)).
  apply argsort_ascending.
Qed.

(** Two sorted arrangements of the same elements are equal when no two
    distinct elements are tied. *)
Lemma sorted_perm_unique {A : Type} (R : A -> A -> Prop) (l1 l2 : list A) :
  (forall x y, In x l1 -> In y l1 -> R x y -> R y x -> x = y) ->
  StronglySorted R l1 -> StronglySorted R l2 -> Permutation l1 l2 ->
  l1 = l2.
Proof.
  revert l2. induction l1 as [|a l1 IH]; intros l2 Hanti Hs1 Hs2 Hp.
  - apply Permutation_nil in Hp. now subst.
  - destruct l2 as [|b l2].
    { apply Permutation_sym, Permutation_nil in Hp. discriminate. }
    apply StronglySorted_inv in Hs1. destruct Hs1 as [Hs1 Ha].
    apply StronglySorted_inv in Hs2. destruct Hs2 as [Hs2 Hb].
    rewrite List.Forall_forall in Ha, Hb.
    assert (Hab : a = b).
    { assert (Hina : In a (b :: l2))
        by (apply (Permutation_in _ Hp); now left).
      assert (Hinb : In b (a :: l1))
        by (apply (Permutation_in _ (Permutation_sym Hp)); now left).
      destruct Hina as [Heq|Hina]; [now subst|].
      destruct Hinb as [Heq|Hinb]; [now subst|].
      apply Hanti; [now left | now right | now apply Ha | now apply Hb]. }
    subst b. f_equal. apply IH; try assumption.
    + intros x y Hx Hy. apply Hanti; now right.
    + eapply Permutation_cons_inv; exact Hp.
Qed.

(** With pairwise distinct scores every sort returns the order of
    [argsort], whatever it does with ties. *)
Lemma argsort_unique (v : list Q) (order : list nat) :
  (forall i j, (i < length v)%nat -> (j < length v)%nat ->
     nth i v 0 == nth j v 0 -> i = j) ->
  Permutation order (seq 0 (length v)) -> ascending v order ->
  order = argsort v.
Proof.
  intros Hinj Hperm Hasc.
  apply (sorted_perm_unique (fun i j => nth i v 0 <= nth j v 0)).
  - intros i j Hi Hj Hij Hji.
    apply Hinj.
    + apply (Permutation_in _ Hperm), in_seq in Hi. lia.
    + apply (Permutation_in _ Hperm), in_seq in Hj. lia.
    + now apply Qle_antisym.
  - exact Hasc.
  - apply argsort_ascending.
  - eapply Permutation_trans; [exact Hperm|].
    apply Permutation_sym, argsort_perm.
Qed.

(** ** What the slice [1:n+1] leaves out *)

Lemma argsort_NoDup (v : list Q) : List.NoDup (argsort v).
Proof.
  apply (Permutation_NoDup (Permutation_sym (argsort_perm v))), List.seq_NoDup.
Qed.

(** The position with the highest score is never recommended, whichever
    game it is. *)
Lemma top_position_dropped (final : list Q) (n : Z) (top : nat) :
  head (rev (argsort final)) = Some top -> ~ In top (recomm_idx final n).
Proof.
  intros Hhd Hin. unfold recomm_idx, py_slice in Hin.
  pose proof (List.NoDup_rev (argsort_NoDup final)) as Hnd.
  destruct (rev (argsort final)) as [|x order]; [discriminate|].
  simpl in Hhd. injection Hhd as ->.
  inversion Hnd as [|? ? Hnotin _]; subst.
  set (k := Z.to_nat _) in Hin.
  assert (Hlo : Z.to_nat (py_clamp (Z.of_nat (length (top :: order))) 1) = 1%nat).
  { unfold py_clamp. simpl length. destruct (Z.ltb_spec 1 0); lia. }
  rewrite Hlo in Hin. simpl in Hin.
  apply Hnotin. rewrite <- (firstn_skipn k order). apply in_or_app. now left.
Qed.

(** ** The specification's example, run *)

(** C1: on the catalog of the specification's example (query "a", row
    [1.0, 0.8, 0.1], alpha 0.3, n 2) the combined scores are 0.3 for the
    query, 0.94 for "b" and 0.03 for "c"; no two are equal, so every sort
    orders them b, a, c.  The slice drops the top game "b" and the query "a"
    is returned in its own recommendations. *)
Theorem query_among_recommendations :
  (exists final sim',
     final_scores_at 0 catalog (3 # 10) dense = (Ret final, sim') /\
     array_eqb final [3 # 10; 94 # 100; 3 # 100] = true /\
     forall order,
       Permutation order (seq 0 (length final)) -> ascending final order ->
       rev order = [1%nat; 0%nat; 2%nat]) /\
  fst (recommend_game prefix_extractOne "a" catalog 2 (3 # 10) dense)
  = Ret (output_message "a", [mk_game "a" "a.jpg"; mk_game "c" "c.jpg"]).
Proof.
  split; [|vm_compute; reflexivity].
  eexists _, _. split; [vm_compute; reflexivity|].
  split; [vm_compute; reflexivity|].
  intros order Hperm Hasc.
  apply argsort_unique in Hasc; [subst order; vm_compute; reflexivity | | exact Hperm].
  intros i j Hi Hj. simpl in Hi, Hj.
  destruct i as [|[|[|i]]]; destruct j as [|[|[|j]]]; try lia;
    try reflexivity; unfold Qeq; simpl; discriminate.
Qed.

(** C3: asked for one recommendation on the same catalog, the call returns
    the game with the second highest score, which is the query itself, and
    not "b", the best of the other games; asked for five, it returns two
    games, one less than the catalog holds, in descending order of score. *)
Theorem second_best_returned :
  rev (argsort [3 # 10; 94 # 100; 3 # 100]) = [1%nat; 0%nat; 2%nat] /\
  fst (recommend_game prefix_extractOne "a" catalog 1 (3 # 10) dense)
  = Ret (output_message "a", [mk_game "a" "a.jpg"]) /\
  fst (recommend_game prefix_extractOne "a" catalog 5 (3 # 10) dense)
  = Ret (output_message "a", [mk_game "a" "a.jpg"; mk_game "c" "c.jpg"]).
Proof. vm_compute. repeat split; reflexivity. Qed.

(** C2: the call writes the normalized scores into row [g_idx] of the
    caller's matrix: on a matrix of raw dot products the first row is
    [4, 2, 1] before the call and [1, 1/2, 1/4] after it. *)
Theorem matrix_row_rewritten :
  matrix_eqb
    (snd (recommend_game prefix_extractOne "a" catalog 5 (3 # 10) raw_dense))
    raw_dense = false /\
  matrix_eqb
    (snd (recommend_game prefix_extractOne "a" catalog 5 (3 # 10) raw_dense))
    [[1; 1 # 2; 1 # 4]; [2; 4; 0]; [1; 0; 4]] = true.
Proof. vm_compute. split; reflexivity. Qed.

(** * Further properties of the code *)

(** ** The normalized title (line 115) *)

Lemma lower_char_idem (c : ascii) : lower_char (lower_char c) = lower_char c.
Proof. destruct c as [[] [] [] [] [] [] [] []]; reflexivity. Qed.

Lemma lower_idem (s : string) : lower (lower s) = lower s.
Proof.
  induction s as [|c s IH]; simpl; [reflexivity|].
  now rewrite lower_char_idem, IH.
Qed.

Lemma lstrip_app_last (l : list ascii) (c : ascii) :
  is_space c = false -> lstrip (l ++ [c]) = lstrip l ++ [c].
Proof.
  intros Hc. induction l as [|x l IH]; simpl.
  - now rewrite Hc.
  - destruct (is_space x); [exact IH | reflexivity].
Qed.

Lemma lstrip_idem (l : list ascii) : lstrip (lstrip l) = lstrip l.
Proof.
  induction l as [|x l IH]; simpl; [reflexivity|].
  destruct (is_space x) eqn:Hx; [exact IH|]. simpl. now rewrite Hx.
Qed.

(** Stripping the right end keeps a left end that is already stripped. *)
Lemma lstrip_rstrip (l : list ascii) :
  lstrip l = l -> lstrip (rev (lstrip (rev l))) = rev (lstrip (rev l)).
Proof.
  destruct l as [|c t]; [reflexivity|]. simpl.
  destruct (is_space c) eqn:Hc.
  - intros Heq. exfalso.
    assert (Hlen : (length (lstrip t) <= length t)%nat).
    { clear. induction t as [|x t IH]; simpl; [lia|].
      destruct (is_space x); simpl; lia. }
    rewrite Heq in Hlen. simpl in Hlen. lia.
  - intros _. rewrite (lstrip_app_last (rev t) c Hc), rev_app_distr.
    simpl. now rewrite Hc.
Qed.

Lemma strip_idem (s : string) : strip (strip s) = strip s.
Proof.
  unfold strip. rewrite list_ascii_of_string_of_list_ascii.
  set (l := lstrip (list_ascii_of_string s)).
  assert (Hl : lstrip l = l) by apply lstrip_idem.
  rewrite (lstrip_rstrip l Hl), rev_involutive, lstrip_idem.
  reflexivity.
Qed.

Lemma lower_list (s : string) :
  list_ascii_of_string (lower s) = map lower_char (list_ascii_of_string s).
Proof. induction s as [|c s IH]; simpl; [reflexivity | now rewrite IH]. Qed.

Lemma lower_of_list (l : list ascii) :
  lower (string_of_list_ascii l) = string_of_list_ascii (map lower_char l).
Proof. induction l as [|c l IH]; simpl; [reflexivity | now rewrite IH]. Qed.

Lemma lstrip_fixed_chars (l : list ascii) :
  Forall (fun c => lower_char c = c) l ->
  Forall (fun c => lower_char c = c) (lstrip l).
Proof.
  induction 1 as [|c l Hc Hl IH]; simpl; [constructor|].
  destruct (is_space c); [exact IH | now constructor].
Qed.

Lemma map_fixed (l : list ascii) :
  Forall (fun c => lower_char c = c) l -> map lower_char l = l.
Proof. induction 1 as [|c l Hc Hl IH]; simpl; [reflexivity | congruence]. Qed.

(** A stripped lowercase string is still lowercase. *)
Lemma lower_strip_lower (s : string) :
  lower (strip (lower s)) = strip (lower s).
Proof.
  unfold strip. rewrite lower_of_list. f_equal. apply map_fixed.
  apply List.Forall_rev, lstrip_fixed_chars, List.Forall_rev, lstrip_fixed_chars.
  rewrite lower_list. apply List.Forall_forall. intros c Hc.
  apply in_map_iff in Hc. destruct Hc as (c0 & <- & _).
  apply lower_char_idem.
Qed.

Lemma strip_lower_idem (title : string) :
  strip (lower (strip (lower title))) = strip (lower title).
Proof. now rewrite lower_strip_lower, strip_idem. Qed.

(** X1: [lower] and [strip] are idempotent, and so is the normalization of
    line 115: the lowercased, stripped form of a title is its own normal
    form. *)
Theorem normalize_title_idempotent (title : string) :
  lower (lower title) = lower title /\
  strip (strip title) = strip title /\
  strip (lower (strip (lower title))) = strip (lower title).
Proof.
  split; [apply lower_idem|]. split; [apply strip_idem | apply strip_lower_idem].
Qed.

(** X2: [recommend_game] reads the title through its normal form only: a
    title and its lowercased, stripped form give the same outcome and leave
    the same matrix, whatever the catalog, the matcher and the arguments. *)
Theorem recommend_game_normalized_title
    (extractOne : string -> list string -> option (string * Z))
    (title : string) (data : DataFrame) (n : Z) (alpha : Q) (sim : matrix) :
  recommend_game extractOne (strip (lower title)) data n alpha sim
  = recommend_game extractOne title data n alpha sim.
Proof.
  unfold recommend_game, resolve_title.
  now rewrite strip_lower_idem.
Qed.

(** ** The range of [jaccard_similarity] *)

Lemma size_inter_le_union (set1 set2 : gset string) :
  (size (set1 ∩ set2) <= size (set1 ∪ set2))%nat.
Proof.
  apply subseteq_size. intros x Hx.
  apply elem_of_intersection in Hx. apply elem_of_union. tauto.
Qed.

Lemma inter_eq_union (set1 set2 : gset string) :
  size (set1 ∩ set2) = size (set1 ∪ set2) -> set1 = set2.
Proof.
  intros Hsz.
  assert (Heq : set1 ∩ set2 ≡ set1 ∪ set2).
  { apply set_subseteq_size_equiv; [|lia].
    intros x Hx. apply elem_of_intersection in Hx. apply elem_of_union. tauto. }
  apply leibniz_equiv. intros x. specialize (Heq x).
  rewrite elem_of_intersection, elem_of_union in Heq. tauto.
Qed.

(** X3: [jaccard_similarity] returns a score between 0 and 1; the score is
    1 exactly on two equal sets that are not empty, and 0 exactly on two
    sets with no common element. *)
Theorem jaccard_similarity_range (set1 set2 : gset string) :
  exists q,
    jaccard_similarity set1 set2 = Ret q /\
    0 <= q /\ q <= 1 /\
    (q == 1 <-> set1 = set2 /\ set1 ≠ ∅) /\
    (q == 0 <-> set1 ∩ set2 = ∅).
Proof.
  destruct (decide (set1 ∪ set2 = ∅)) as [He|Hne].
  - exists 0. split; [now apply jaccard_similarity_empty|].
    assert (H1 : set1 = ∅).
    { apply leibniz_equiv. intros x. split; [|intros Hx; now apply elem_of_empty in Hx].
      intros Hx. rewrite <- He. apply elem_of_union. now left. }
    split; [apply Qle_refl|]. split; [discriminate|]. split.
    + split; [discriminate | intros [_ Hn]; contradiction].
    + split; [|reflexivity]. intros _. subst set1.
      apply leibniz_equiv. intros x. rewrite elem_of_intersection.
      split; [tauto | intros Hx; now apply elem_of_empty in Hx].
  - eexists. split; [now apply jaccard_similarity_nonempty|].
    pose proof (size_inter_le_union set1 set2) as Hle.
    assert (Hu : size (set1 ∪ set2) <> O).
    { intros Hz. apply size_empty_inv, leibniz_equiv in Hz. contradiction. }
    assert (Hpos : Z.pos (Pos.of_nat (size (set1 ∪ set2)))
                   = Z.of_nat (size (set1 ∪ set2))).
    { rewrite <- (positive_nat_Z (Pos.of_nat _)), Nat2Pos.id by exact Hu.
      reflexivity. }
    unfold Qle, Qeq. simpl. rewrite Hpos.
    split; [lia|]. split; [lia|]. split.
    + split.
      * intros Heq. assert (Hsz : size (set1 ∩ set2) = size (set1 ∪ set2)) by lia.
        apply inter_eq_union in Hsz. subst set2. split; [reflexivity|].
        intros ->. apply Hne. apply leibniz_equiv. intros x.
        rewrite elem_of_union. tauto.
      * intros [<- _].
        assert (Hi : set1 ∩ set1 = set1) by apply (idemp_L _).
        assert (Hv : set1 ∪ set1 = set1) by apply (idemp_L _).
        rewrite Hi, Hv. lia.
    + split.
      * intros Heq. apply leibniz_equiv, size_empty_inv. lia.
      * intros ->. rewrite size_empty. lia.
Qed.

(** ** Maximum and normalization *)

Lemma Qmax_cases (x y : Q) : Qmax x y = x \/ Qmax x y = y.
Proof.
  unfold Qmax, GenericMinMax.gmax. destruct (Qcompare x y); auto.
Qed.

Lemma fold_left_Qmax_spec (xs : list Q) (x : Q) :
  (fold_left Qmax xs x = x \/ In (fold_left Qmax xs x) xs) /\
  x <= fold_left Qmax xs x /\
  Forall (fun y => y <= fold_left Qmax xs x) xs.
Proof.
  revert x. induction xs as [|y xs IH]; intros x; simpl.
  - split; [now left|]. split; [apply Qle_refl | constructor].
  - destruct (IH (Qmax x y)) as (Hin & Hge & Hall).
    pose proof (Q.le_max_l x y) as Hl. pose proof (Q.le_max_r x y) as Hr.
    split.
    + destruct Hin as [Heq|Hin]; [|now right; right].
      rewrite Heq. destruct (Qmax_cases x y) as [->| ->]; [now left|].
      right. now left.
    + split; [eapply Qle_trans; eassumption|].
      constructor; [eapply Qle_trans; eassumption | exact Hall].
Qed.

(** [np.max] returns an entry of the array that no entry exceeds. *)
Lemma np_max_spec (v : list Q) (m : Q) :
  np_max v = Ret m -> In m v /\ Forall (fun y => y <= m) v.
Proof.
  destruct v as [|x xs]; simpl; [discriminate|]. intros [= <-].
  destruct (fold_left_Qmax_spec xs x) as (Hin & Hge & Hall).
  split; [destruct Hin as [->|Hin]; [now left | now right]|].
  now constructor.
Qed.

Lemma Qlt_bool_true (a b : Q) : Qlt_bool a b = true <-> a < b.
Proof.
  unfold Qlt_bool. rewrite negb_true_iff. split.
  - intros H. apply Qnot_le_lt. intros Hle.
    apply Qle_bool_iff in Hle. congruence.
  - intros Hlt. destruct (Qle_bool b a) eqn:Hle; [|reflexivity].
    apply Qle_bool_iff in Hle. exfalso. apply (Qlt_not_le _ _ Hlt Hle).
Qed.

Lemma Qlt_bool_false (a b : Q) : Qlt_bool a b = false <-> b <= a.
Proof.
  unfold Qlt_bool. rewrite negb_false_iff. apply Qle_bool_iff.
Qed.

Lemma Qdiv_range (x m : Q) : 0 <= x -> x <= m -> 0 < m -> 0 <= x / m /\ x / m <= 1.
Proof.
  intros Hx Hm Hpos. split.
  - apply Qle_shift_div_l; [exact Hpos|]. now rewrite Qmult_0_l.
  - apply Qle_shift_div_r; [exact Hpos|]. now rewrite Qmult_1_l.
Qed.

Lemma normalize_range (v w : list Q) :
  normalize v = Ret w -> Forall (fun x => 0 <= x) v ->
  Forall (fun x => 0 <= x /\ x <= 1) w.
Proof.
  unfold normalize. destruct (np_max v) as [m|] eqn:Hm; simpl; [|discriminate].
  destruct (np_max_spec v m Hm) as [_ Hall].
  destruct (Qlt_bool 0 m) eqn:Hpos; intros [= <-] Hnn.
  - apply Qlt_bool_true in Hpos. apply List.Forall_map.
    rewrite List.Forall_forall in *. intros x Hx.
    apply Qdiv_range; auto.
  - apply Qlt_bool_false in Hpos.
    rewrite List.Forall_forall in *. intros x Hx.
    split; [now apply Hnn|].
    apply Qle_trans with m; [now apply Hall|].
    apply Qle_trans with 0; [exact Hpos | discriminate].
Qed.

(** The row read by [cosine_scores] is normalized as [normalize] does, and
    written back. *)
Lemma cosine_scores_normalize (g_idx : nat) (sim : matrix) (view : list Q) :
  sim !! g_idx = Some view ->
  cosine_scores g_idx sim
  = match normalize view with
    | Ret cosine => (Ret cosine, <[g_idx := cosine]> sim)
    | Raise e => (Raise e, sim)
    end.
Proof.
  intros Hrow. unfold cosine_scores, normalize, m_bind, get_row, lift, set_row,
    m_ret, bind.
  rewrite Hrow. destruct (np_max view) as [m|]; [|reflexivity].
  destruct (Qlt_bool 0 m); [reflexivity|].
  now rewrite list_insert_id.
Qed.

Lemma jaccard_similarity_nonneg (set1 set2 : gset string) (q : Q) :
  jaccard_similarity set1 set2 = Ret q -> 0 <= q.
Proof.
  unfold jaccard_similarity.
  destruct (size (set1 ∪ set2)) as [|u]; simpl; intros [= <-].
  - apply Qle_refl.
  - unfold Qle. simpl. lia.
Qed.

Lemma jaccard_loop_nonneg (data : DataFrame) (g_idx idx : nat)
    (rows : list row) (scores : list Q) :
  jaccard_loop data g_idx idx rows = Ret scores ->
  Forall (fun x => 0 <= x) scores.
Proof.
  revert idx scores. induction rows as [|r rest IH]; intros idx scores; simpl.
  - intros [= <-]. constructor.
  - destruct (Nat.eqb idx g_idx).
    + simpl. destruct (jaccard_loop data g_idx (S idx) rest) as [tl|] eqn:Htl;
        simpl; [|discriminate].
      intros [= <-]. constructor; [apply Qle_refl | now apply (IH (S idx))].
    + destruct (tags_at g_idx data) as [tags|]; simpl; [|discriminate].
      destruct (jaccard_similarity tags (Tags r)) as [q|] eqn:Hq; simpl;
        [|discriminate].
      destruct (jaccard_loop data g_idx (S idx) rest) as [tl|] eqn:Htl;
        simpl; [|discriminate].
      intros [= <-]. constructor;
        [now apply jaccard_similarity_nonneg in Hq | now apply (IH (S idx))].
Qed.

Lemma zip_with_range (alpha : Q) (cosine jaccard : list Q) :
  0 <= alpha -> alpha <= 1 ->
  Forall (fun x => 0 <= x /\ x <= 1) cosine ->
  Forall (fun x => 0 <= x /\ x <= 1) jaccard ->
  Forall (fun x => 0 <= x /\ x <= 1)
    (zip_with (fun c j => alpha * c + (1 - alpha) * j) cosine jaccard).
Proof.
  intros Ha0 Ha1 Hc. revert jaccard.
  induction Hc as [|c cosine [Hc0 Hc1] Hcs IH]; intros jaccard Hj; simpl;
    [constructor|].
  destruct Hj as [|j jaccard [Hj0 Hj1] Hjs]; [constructor|].
  constructor; [|now apply IH].
  split; nra.
Qed.

(** X4: for a non-negative matrix row and [alpha] in [0, 1], every combined
    score lies between 0 and 1, whether or not either vector was
    normalized. *)
Theorem combined_score_range (g_idx : nat) (data : DataFrame) (alpha : Q)
    (sim : matrix) (view : list Q) :
  (g_idx < length data)%nat ->
  sim !! g_idx = Some view -> length view = length data ->
  Forall (fun x => 0 <= x) view -> 0 <= alpha -> alpha <= 1 ->
  exists final sim',
    final_scores_at g_idx data alpha sim = (Ret final, sim') /\
    length final = length data /\
    Forall (fun x => 0 <= x /\ x <= 1) final.
Proof.
  intros Hg Hrow Hlen Hnn Ha0 Ha1.
  destruct (recommend_at_returns g_idx "" data 0 alpha sim view Hg Hrow Hlen)
    as (scores & jaccard & cosine & games & Hs & Hj & Hc & Hjl & Hcl & Hrest).
  cbv zeta in Hrest. destruct Hrest as (Hfinal & _).
  eexists _, _. split; [exact Hfinal|].
  split; [rewrite length_combined; congruence|].
  apply zip_with_range; try assumption.
  - rewrite (cosine_scores_normalize g_idx sim view Hrow) in Hc.
    destruct (normalize view) as [c|] eqn:Hn; [|discriminate].
    inversion Hc; subst c. eapply normalize_range; eassumption.
  - eapply normalize_range; [exact Hj|].
    eapply jaccard_loop_nonneg. exact Hs.
Qed.

Lemma combined_score_range_witness :
  exists final sim',
    final_scores_at 0 catalog (3 # 10) dense = (Ret final, sim') /\
    length final = length catalog /\
    Forall (fun x => 0 <= x /\ x <= 1) final.
Proof.
  apply (combined_score_range 0 catalog (3 # 10) dense [1; 8 # 10; 1 # 10]);
    try reflexivity; try (simpl; lia); try discriminate.
  repeat constructor; discriminate.
Defined.

(** ** The query's own score *)

Lemma jaccard_loop_self (data : DataFrame) (g_idx idx : nat)
    (rows : list row) (scores : list Q) :
  jaccard_loop data g_idx idx rows = Ret scores ->
  (idx <= g_idx)%nat -> (g_idx - idx < length rows)%nat ->
  scores !! (g_idx - idx)%nat = Some 0.
Proof.
  revert idx scores. induction rows as [|r rest IH]; intros idx scores; simpl;
    [intros _ _ Hlt; lia|].
  intros Hloop Hle Hlt.
  destruct (Nat.eqb_spec idx g_idx) as [->|Hne].
  - simpl in Hloop.
    destruct (jaccard_loop data g_idx (S g_idx) rest); simpl in Hloop;
      [|discriminate].
    injection Hloop as <-. now rewrite Nat.sub_diag.
  - destruct (tags_at g_idx data); simpl in Hloop; [|discriminate].
    destruct (jaccard_similarity _ _); simpl in Hloop; [|discriminate].
    destruct (jaccard_loop data g_idx (S idx) rest) as [tl|] eqn:Htl;
      simpl in Hloop; [|discriminate].
    injection Hloop as <-.
    replace (g_idx - idx)%nat with (S (g_idx - S idx)) by lia. simpl.
    apply (IH (S idx)); [exact Htl | lia | lia].
Qed.

Lemma normalize_zero_entry (v w : list Q) (i : nat) (x : Q) :
  normalize v = Ret w -> v !! i = Some x -> x == 0 ->
  exists y, w !! i = Some y /\ y == 0.
Proof.
  unfold normalize. destruct (np_max v) as [m|]; simpl; [|discriminate].
  destruct (Qlt_bool 0 m); intros [= <-] Hx Hz.
  - exists (x / m). split.
    + change (map (fun x0 => x0 / m) v) with ((fun x0 => x0 / m) <$> v).
      now rewrite list_lookup_fmap, Hx.
    + rewrite Hz. unfold Qdiv. apply Qmult_0_l.
  - now exists x.
Qed.

(** X5: the tag score of the query is forced to 0, so its own combined
    score is [alpha] times its normalized dense score. *)
Theorem query_own_score (g_idx : nat) (data : DataFrame) (alpha : Q)
    (sim : matrix) (view : list Q) :
  (g_idx < length data)%nat ->
  sim !! g_idx = Some view -> length view = length data ->
  exists final sim' cosine c s,
    final_scores_at g_idx data alpha sim = (Ret final, sim') /\
    normalize view = Ret cosine /\
    cosine !! g_idx = Some c /\
    final !! g_idx = Some s /\ s == alpha * c.
Proof.
  intros Hg Hrow Hlen.
  destruct (recommend_at_returns g_idx "" data 0 alpha sim view Hg Hrow Hlen)
    as (scores & jaccard & cosine & games & Hs & Hj & Hc & Hjl & Hcl & Hrest).
  cbv zeta in Hrest. destruct Hrest as (Hfinal & _).
  assert (Hself : scores !! g_idx = Some 0).
  { rewrite <- (Nat.sub_0_r g_idx) at 1.
    apply (jaccard_loop_self data g_idx 0 data); [exact Hs | lia |].
    rewrite Nat.sub_0_r. exact Hg. }
  destruct (normalize_zero_entry scores jaccard g_idx 0 Hj Hself)
    as (j & Hjg & Hj0); [reflexivity|].
  destruct (lookup_lt_is_Some_2 cosine g_idx) as [c Hcg]; [lia|].
  rewrite (cosine_scores_normalize g_idx sim view Hrow) in Hc.
  destruct (normalize view) as [cos'|] eqn:Hn; [|discriminate].
  assert (cos' = cosine) by congruence. subst cos'.
  eexists _, _, cosine, c, _. split; [exact Hfinal|].
  split; [reflexivity|]. split; [exact Hcg|]. split.
  - rewrite lookup_zip_with, Hcg, Hjg. reflexivity.
  - rewrite Hj0. ring.
Qed.

Lemma query_own_score_witness :
  exists final sim' cosine c s,
    final_scores_at 0 catalog (3 # 10) dense = (Ret final, sim') /\
    normalize [1; 8 # 10; 1 # 10] = Ret cosine /\
    cosine !! 0%nat = Some c /\
    final !! 0%nat = Some s /\ s == (3 # 10) * c.
Proof.
  apply (query_own_score 0 catalog (3 # 10) dense [1; 8 # 10; 1 # 10]);
    try reflexivity. simpl. lia.
Defined.

(** ** The shape of the recommendation list *)

Lemma game_list_of_rows (data : DataFrame) (idxs : list nat) (games : list game) :
  game_list_of data idxs = Ret games ->
  Forall2 (fun i gm => exists r, data !! i = Some r /\ gm = game_of r) idxs games.
Proof.
  revert games. induction idxs as [|i idxs IH]; intros games; simpl.
  - intros [= <-]. constructor.
  - destruct (data !! i) as [r|] eqn:Hr; [|discriminate].
    destruct (game_list_of data idxs) as [tl|]; simpl; [|discriminate].
    intros [= <-]. constructor; [now exists r | now apply IH].
Qed.

Lemma recomm_idx_NoDup (final : list Q) (n : Z) :
  List.NoDup (recomm_idx final n).
Proof.
  unfold recomm_idx, py_slice.
  pose proof (List.NoDup_rev (argsort_NoDup final)) as Hnd.
  set (order := rev (argsort final)) in *.
  set (lo := Z.to_nat (py_clamp (Z.of_nat (length order)) 1)).
  set (k := Z.to_nat _).
  rewrite <- (firstn_skipn lo order) in Hnd.
  apply List.NoDup_app_remove_l in Hnd.
  rewrite <- (firstn_skipn k (skipn lo order)) in Hnd.
  now apply List.NoDup_app_remove_r in Hnd.
Qed.

(** X6: for a title that resolves, on an aligned row and with [n] not
    negative, the list holds [min n (N - 1)] games: the rows at pairwise
    distinct positions, in descending order of combined score. *)
Theorem recommendation_list_shape
    (extractOne : string -> list string -> option (string * Z))
    (title found : string) (data : DataFrame) (n : Z) (alpha : Q)
    (sim : matrix) (g_idx : nat) (view : list Q) :
  resolve_title extractOne default_threshold title data = Ret (Found found) ->
  first_index found data = Some g_idx ->
  sim !! g_idx = Some view -> length view = length data -> (0 <= n)%Z ->
  exists final idxs games sim',
    final_scores_at g_idx data alpha sim = (Ret final, sim') /\
    recommend_game extractOne title data n alpha sim
    = (Ret (output_message found, games), sim') /\
    length games = Nat.min (Z.to_nat n) (length data - 1) /\
    List.NoDup idxs /\ descending final idxs /\
    Forall2 (fun i gm => exists r, data !! i = Some r /\ gm = game_of r)
      idxs games.
Proof.
  intros Hres Hidx Hrow Hlen Hn.
  pose proof (first_index_bound _ _ _ Hidx) as Hg.
  destruct (recommend_at_returns g_idx found data n alpha sim view Hg Hrow Hlen)
    as (scores & jaccard & cosine & games & _ & _ & _ & Hjl & Hcl & Hrest).
  cbv zeta in Hrest. destruct Hrest as (Hfinal & Hgames & Hgl & Hrun).
  eexists _, (recomm_idx _ n), games, _.
  split; [exact Hfinal|]. split.
  { rewrite (recommend_game_found extractOne title found data g_idx n alpha sim
               Hres Hidx). exact Hrun. }
  split.
  { rewrite Hgl, length_recomm_idx; [| exact Hn |].
    - rewrite length_combined by congruence. now rewrite Hjl.
    - apply (nonempty_of_length _ g_idx).
      rewrite length_combined by congruence. lia. }
  split; [apply recomm_idx_NoDup|]. split; [apply recomm_idx_descending|].
  now apply game_list_of_rows.
Qed.

Lemma recommendation_list_shape_witness :
  exists final idxs games sim',
    final_scores_at 0 catalog (3 # 10) dense = (Ret final, sim') /\
    recommend_game prefix_extractOne "a" catalog 5 (3 # 10) dense
    = (Ret (output_message "a", games), sim') /\
    length games = Nat.min (Z.to_nat 5) (length catalog - 1) /\
    List.NoDup idxs /\ descending final idxs /\
    Forall2 (fun i gm => exists r, catalog !! i = Some r /\ gm = game_of r)
      idxs games.
Proof.
  apply (recommendation_list_shape prefix_extractOne "a" "a" catalog 5 (3 # 10)
           dense 0 [1; 8 # 10; 1 # 10]); try reflexivity. lia.
Defined.

(** X7: the position with the highest combined score is never among the
    recommended ones, and once [n] reaches [N - 1] the recommended positions
    are all the positions but that one. *)
Theorem all_but_top_recommended (final : list Q) (n : Z) :
  (forall top, head (rev (argsort final)) = Some top ->
     ~ In top (recomm_idx final n)) /\
  ((Z.of_nat (length final) - 1 <= n)%Z ->
     forall i, In i (recomm_idx final n) <->
       (i < length final)%nat /\ head (rev (argsort final)) <> Some i).
Proof.
  split; [intros top; apply top_position_dropped|].
  intros Hn i.
  pose proof (List.NoDup_rev (argsort_NoDup final)) as Hnd.
  assert (Hin : forall j, In j (rev (argsort final)) <-> (j < length final)%nat).
  { intros j. rewrite <- in_rev. split.
    - intros Hj. apply (Permutation_in _ (argsort_perm final)), in_seq in Hj. lia.
    - intros Hj. apply (Permutation_in _ (Permutation_sym (argsort_perm final))).
      apply in_seq. lia. }
  assert (Hlen : length (rev (argsort final)) = length final).
  { rewrite length_rev, (Permutation_length (argsort_perm final)).
    apply length_seq. }
  unfold recomm_idx, py_slice. rewrite Hlen.
  destruct (rev (argsort final)) as [|top order] eqn:Horder.
  - simpl in Hlen. rewrite <- Hlen. simpl.
    rewrite firstn_nil. split; [intros [] | intros [Hlt _]; lia].
  - simpl in Hlen.
    assert (Hlo : py_clamp (Z.of_nat (length final)) 1 = 1%Z).
    { unfold py_clamp. destruct (Z.ltb_spec 1 0); lia. }
    assert (Hhi : py_clamp (Z.of_nat (length final)) (n + 1)
                  = Z.of_nat (length final)).
    { unfold py_clamp. destruct (Z.ltb_spec (n + 1) 0); lia. }
    rewrite Hlo, Hhi. change (skipn (Z.to_nat 1) (top :: order)) with order.
    rewrite firstn_all2 by lia.
    inversion Hnd as [|? ? Hnotin _]; subst. simpl.
    rewrite <- (Hin i). simpl. split.
    + intros Hi. split; [now right|]. intros [= ->]. contradiction.
    + intros [[->|Hi] Hne]; [congruence | exact Hi].
Qed.

Lemma all_but_top_recommended_witness :
  (forall top, head (rev (argsort [3 # 10; 94 # 100; 3 # 100])) = Some top ->
     ~ In top (recomm_idx [3 # 10; 94 # 100; 3 # 100] 2)) /\
  ((Z.of_nat (length [3 # 10; 94 # 100; 3 # 100]) - 1 <= 2)%Z ->
     forall i, In i (recomm_idx [3 # 10; 94 # 100; 3 # 100] 2) <->
       (i < length [3 # 10; 94 # 100; 3 # 100])%nat /\
       head (rev (argsort [3 # 10; 94 # 100; 3 # 100])) <> Some i).
Proof. exact (all_but_top_recommended [3 # 10; 94 # 100; 3 # 100] 2). Defined.

(** ** What a call does to the matrix *)

(** X8: a call leaves the matrix as it was, or replaces the row of the
    resolved game, whose maximum [m] is positive, by that row divided by
    [m]; the number of rows and every other row are kept. *)
Theorem matrix_after_call
    (extractOne : string -> list string -> option (string * Z))
    (title : string) (data : DataFrame) (n : Z) (alpha : Q) (sim : matrix) :
  snd (recommend_game extractOne title data n alpha sim) = sim \/
  exists found g_idx view m,
    resolve_title extractOne default_threshold title data = Ret (Found found) /\
    first_index found data = Some g_idx /\
    sim !! g_idx = Some view /\ np_max view = Ret m /\ 0 < m /\
    snd (recommend_game extractOne title data n alpha sim)
    = <[g_idx := map (fun x => x / m) view]> sim.
Proof.
  unfold recommend_game, m_bind, lift, m_ret.
  destruct (resolve_title extractOne default_threshold title data)
    as [[found|]|e] eqn:Hres; try (left; reflexivity).
  unfold g_index.
  destruct (first_index found data) as [g|] eqn:Hidx; [|left; reflexivity].
  unfold recommend_at, final_scores_at, cosine_scores, m_bind, lift, m_ret,
    get_row, set_row.
  destruct (jaccard_scores g data) as [scores|]; [|left; reflexivity].
  destruct (normalize scores) as [jaccard|]; [|left; reflexivity].
  destruct (sim !! g) as [view|] eqn:Hrow; [|left; reflexivity].
  destruct (np_max view) as [m|] eqn:Hm; [|left; reflexivity].
  destruct (Qlt_bool 0 m) eqn:Hpos.
  - right. exists found, g, view, m.
    apply Qlt_bool_true in Hpos. repeat split; try assumption; try reflexivity.
    destruct (final_score alpha _ jaccard); simpl; [|reflexivity].
    destruct (game_list_of data _); reflexivity.
  - left. destruct (final_score alpha view jaccard); simpl; [|reflexivity].
    destruct (game_list_of data _); reflexivity.
Qed.

(** ** When a call raises *)

(** X9: on an aligned matrix a call raises only in the fuzzy fallback,
    when the title is not a name of the catalog and the matcher returns no
    candidate; the exception is then [TypeError].  Every other call returns
    a message and a list. *)
Theorem recommend_game_raises_only
    (extractOne : string -> list string -> option (string * Z))
    (title : string) (data : DataFrame) (n : Z) (alpha : Q) (sim : matrix) :
  aligned data sim ->
  (title_in (strip (lower title)) data = false /\
   extractOne (strip (lower title)) (map Name data) = None ->
   fst (recommend_game extractOne title data n alpha sim) = Raise TypeError) /\
  (~ (title_in (strip (lower title)) data = false /\
      extractOne (strip (lower title)) (map Name data) = None) ->
   exists message games,
     fst (recommend_game extractOne title data n alpha sim)
     = Ret (message, games)).
Proof.
  intros Hal.
  assert (Hfound : forall found,
            resolve_title extractOne default_threshold title data
            = Ret (Found found) ->
            exists message games,
              fst (recommend_game extractOne title data n alpha sim)
              = Ret (message, games)).
  { intros found Hres.
    pose proof (resolve_title_found_in _ _ _ _ _ Hres) as Hin.
    destruct (first_index_spec _ _ Hin) as (g & r & Hg & _).
    pose proof (first_index_bound _ _ _ Hg) as Hlt.
    destruct (Hal g Hlt) as (view & Hrow & Hlen).
    destruct (recommend_at_returns g found data n alpha sim view Hlt Hrow Hlen)
      as (? & ? & ? & games & _ & _ & _ & _ & _ & Hrest).
    cbv zeta in Hrest. destruct Hrest as (_ & _ & _ & Hrun).
    exists (output_message found), games.
    rewrite (recommend_game_found extractOne title found data g n alpha sim
               Hres Hg), Hrun. reflexivity. }
  split.
  - intros [Hnot Hnone]. unfold recommend_game, m_bind, lift.
    rewrite resolve_title_fuzzy by exact Hnot.
    unfold correct_name. rewrite Hnone. reflexivity.
  - intros Hno.
    destruct (resolve_title extractOne default_threshold title data)
      as [[found|]|e] eqn:Hres.
    + now apply (Hfound found).
    + exists not_found_message, []. unfold recommend_game, m_bind, lift.
      rewrite Hres. reflexivity.
    + exfalso. apply Hno. unfold resolve_title in Hres.
      destruct (title_in (strip (lower title)) data); simpl in Hres;
        [discriminate|].
      split; [reflexivity|]. unfold correct_name in Hres.
      destruct (extractOne _ _) as [[best score]|]; [|reflexivity].
      exfalso. destruct (_ <=? _)%Z; simpl in Hres; [|discriminate].
      destruct (_ && _)%bool; discriminate.
Qed.

Lemma aligned_catalog_dense : aligned catalog dense.
Proof.
  intros g Hg. simpl in Hg.
  destruct g as [|[|[|g]]]; [| | |lia]; eexists; split; reflexivity.
Qed.

Lemma recommend_game_raises_only_witness :
  (title_in (strip (lower "zelda")) catalog = false /\
   prefix_extractOne (strip (lower "zelda")) (map Name catalog) = None ->
   fst (recommend_game prefix_extractOne "zelda" catalog 5 (3 # 10) dense)
   = Raise TypeError) /\
  (~ (title_in (strip (lower "zelda")) catalog = false /\
      prefix_extractOne (strip (lower "zelda")) (map Name catalog) = None) ->
   exists message games,
     fst (recommend_game prefix_extractOne "zelda" catalog 5 (3 # 10) dense)
     = Ret (message, games)).
Proof.
  exact (recommend_game_raises_only prefix_extractOne "zelda" catalog 5
           (3 # 10) dense aligned_catalog_dense).
Defined.

(** ** Calling twice *)

Lemma Forall2_Qeq_refl (v : list Q) : Forall2 Qeq v v.
Proof. induction v; constructor; [reflexivity | assumption]. Qed.

Lemma Qdiv_self (m : Q) : 0 < m -> m / m == 1.
Proof.
  intros Hm. unfold Qdiv. apply Qmult_inv_r.
  intros H. rewrite H in Hm. discriminate.
Qed.

(** A normalized array has maximum 1 or was left alone: normalizing it
    again changes no value. *)
Lemma normalize_idem (v w w' : list Q) :
  normalize v = Ret w -> normalize w = Ret w' -> Forall2 Qeq w' w.
Proof.
  unfold normalize at 1.
  destruct (np_max v) as [m|] eqn:Hm; simpl; [|discriminate].
  destruct (Qlt_bool 0 m) eqn:Hpos; intros [= <-].
  - apply Qlt_bool_true in Hpos.
    destruct (np_max_spec v m Hm) as [Hmin Hmall].
    unfold normalize.
    destruct (np_max (map (fun x => x / m) v)) as [m'|] eqn:Hm'; simpl;
      [|discriminate].
    destruct (np_max_spec _ m' Hm') as [Hin' Hall'].
    assert (Hone : m' == 1).
    { apply Qle_antisym.
      - apply in_map_iff in Hin'. destruct Hin' as (x & <- & Hx).
        rewrite List.Forall_forall in Hmall.
        apply Qle_shift_div_r; [exact Hpos|]. rewrite Qmult_1_l. now apply Hmall.
      - rewrite List.Forall_forall in Hall'.
        rewrite <- (Qdiv_self m Hpos). apply Hall'.
        apply in_map_iff. now exists m. }
    assert (Hpos' : Qlt_bool 0 m' = true).
    { apply Qlt_bool_true. rewrite Hone. reflexivity. }
    rewrite Hpos'. intros [= <-]. clear Hm' Hin' Hall'.
    induction (map (fun x => x / m) v) as [|y l IH]; simpl; constructor.
    + rewrite Hone. unfold Qdiv. change (/ 1) with 1. apply Qmult_1_r.
    + apply IH.
  - intros Hw. unfold normalize in Hw. rewrite Hm in Hw. simpl in Hw.
    rewrite Hpos in Hw. injection Hw as <-. apply Forall2_Qeq_refl.
Qed.

Lemma zip_with_Qeq (alpha : Q) (c2 c1 jaccard : list Q) :
  Forall2 Qeq c2 c1 ->
  Forall2 Qeq
    (zip_with (fun c j => alpha * c + (1 - alpha) * j) c2 jaccard)
    (zip_with (fun c j => alpha * c + (1 - alpha) * j) c1 jaccard).
Proof.
  intros H. revert jaccard. induction H as [|x y c2 c1 Hxy Hc IH];
    intros [|j jaccard]; simpl; constructor.
  - now rewrite Hxy.
  - apply IH.
Qed.

Lemma insert_sorted_Qeq (p q : nat * Q) (l k : list (nat * Q)) :
  fst p = fst q /\ snd p == snd q ->
  Forall2 (fun a b => fst a = fst b /\ snd a == snd b) l k ->
  Forall2 (fun a b => fst a = fst b /\ snd a == snd b)
    (insert_sorted p l) (insert_sorted q k).
Proof.
  intros Hpq H. induction H as [|x y l k Hxy Hlk IH]; simpl.
  - constructor; [exact Hpq | constructor].
  - rewrite (Qleb_comp _ _ (proj2 Hpq) _ _ (proj2 Hxy)).
    destruct (Qle_bool (snd q) (snd y)).
    + constructor; [exact Hpq|]. constructor; assumption.
    + constructor; assumption.
Qed.

(** [argsort] sees the scores through their values only. *)
Lemma argsort_Qeq (v w : list Q) : Forall2 Qeq v w -> argsort v = argsort w.
Proof.
  intros H. unfold argsort.
  assert (Hrel : forall start,
            Forall2 (fun a b => fst a = fst b /\ snd a == snd b)
              (fold_right insert_sorted [] (combine (seq start (length v)) v))
              (fold_right insert_sorted [] (combine (seq start (length w)) w))).
  { induction H as [|x y v w Hxy Hvw IH]; intros start; simpl; [constructor|].
    apply insert_sorted_Qeq; [now split | apply IH]. }
  specialize (Hrel O).
  induction Hrel as [|a b l k [Hab _] _ IH]; simpl; [reflexivity|].
  now rewrite Hab, IH.
Qed.

(** X10: a second call with the same arguments, on the matrix the first
    call left, returns the same message and the same list, and leaves in
    the matrix the values the first call left. *)
Theorem repeated_call_stable
    (extractOne : string -> list string -> option (string * Z))
    (title found : string) (data : DataFrame) (n : Z) (alpha : Q)
    (sim : matrix) (g_idx : nat) (view : list Q) :
  resolve_title extractOne default_threshold title data = Ret (Found found) ->
  first_index found data = Some g_idx ->
  sim !! g_idx = Some view -> length view = length data ->
  exists out sim1 sim2,
    recommend_game extractOne title data n alpha sim = (Ret out, sim1) /\
    recommend_game extractOne title data n alpha sim1 = (Ret out, sim2) /\
    Forall2 (Forall2 Qeq) sim2 sim1.
Proof.
  intros Hres Hidx Hrow Hlen.
  pose proof (first_index_bound _ _ _ Hidx) as Hg.
  destruct (recommend_at_returns g_idx found data n alpha sim view Hg Hrow Hlen)
    as (scores & jaccard & c1 & games1 & Hs & Hj & Hc1 & Hjl & Hcl & Hrest).
  cbv zeta in Hrest. destruct Hrest as (_ & Hgames1 & _ & Hrun1).
  assert (Hrow1 : <[g_idx := c1]> sim !! g_idx = Some c1).
  { apply list_lookup_insert_eq. now apply (lookup_lt_Some sim g_idx view). }
  destruct (recommend_at_returns g_idx found data n alpha (<[g_idx := c1]> sim)
              c1 Hg Hrow1 Hcl)
    as (scores' & jaccard' & c2 & games2 & Hs' & Hj' & Hc2 & _ & _ & Hrest).
  cbv zeta in Hrest. destruct Hrest as (_ & Hgames2 & _ & Hrun2).
  assert (scores' = scores) by congruence. subst scores'.
  assert (jaccard' = jaccard) by congruence. subst jaccard'.
  assert (Hcc : Forall2 Qeq c2 c1).
  { rewrite (cosine_scores_normalize g_idx sim view Hrow) in Hc1.
    rewrite (cosine_scores_normalize g_idx _ c1 Hrow1) in Hc2.
    destruct (normalize view) as [a|] eqn:Ha; [|discriminate].
    destruct (normalize c1) as [b|] eqn:Hb; [|discriminate].
    assert (a = c1) by congruence. assert (b = c2) by congruence. subst a b.
    eapply normalize_idem; eassumption. }
  assert (Hidxs : recomm_idx
                    (zip_with (fun c j => alpha * c + (1 - alpha) * j) c2 jaccard) n
                  = recomm_idx
                    (zip_with (fun c j => alpha * c + (1 - alpha) * j) c1 jaccard) n).
  { unfold recomm_idx.
    now rewrite (argsort_Qeq _ _ (zip_with_Qeq alpha c2 c1 jaccard Hcc)). }
  rewrite Hidxs in Hgames2.
  assert (games2 = games1) by congruence. subst games2.
  exists (output_message found, games1), (<[g_idx := c1]> sim),
    (<[g_idx := c2]> (<[g_idx := c1]> sim)).
  rewrite !(recommend_game_found extractOne title found data g_idx n alpha _
              Hres Hidx).
  split; [exact Hrun1|]. split; [exact Hrun2|].
  rewrite list_insert_insert_eq.
  apply Forall2_insert; [|exact Hcc].
  clear. induction sim; constructor; [apply Forall2_Qeq_refl | assumption].
Qed.

Lemma repeated_call_stable_witness :
  exists out sim1 sim2,
    recommend_game prefix_extractOne "a" catalog 5 (3 # 10) raw_dense
    = (Ret out, sim1) /\
    recommend_game prefix_extractOne "a" catalog 5 (3 # 10) sim1
    = (Ret out, sim2) /\
    Forall2 (Forall2 Qeq) sim2 sim1.
Proof.
  apply (repeated_call_stable prefix_extractOne "a" "a" catalog 5 (3 # 10)
           raw_dense 0 [4; 2; 1]); reflexivity.
Defined.

(** ** [get_random_popular_games] on a dict *)

Lemma omap_lookup_shift {A : Type} (a : A) (cells : list A) (start n : nat) :
  omap (fun i => (a :: cells) !! i) (seq (S start) n)
  = omap (fun i => cells !! i) (seq start n).
Proof.
  revert start. induction n as [|n IH]; intros start; [reflexivity|].
  cbn [seq]. cbn [omap list_omap]. change (list_omap ?f ?l) with (omap f l).
  rewrite IH. reflexivity.
Qed.

(** Selecting the indices [0 .. n-1] in order gives the first [n] cells. *)
Lemma selected_cells_seq {A : Type} (cells : list A) (n : nat) :
  selected_cells cells (seq 0 n) = firstn n cells.
Proof.
  unfold selected_cells. revert n.
  induction cells as [|a cells IH]; intros n.
  - rewrite firstn_nil. generalize 0%nat.
    induction n as [|n IHn]; intros start; [reflexivity|].
    cbn [seq]. cbn [omap list_omap]. change (list_omap ?f ?l) with (omap f l).
    rewrite lookup_nil. apply IHn.
  - destruct n as [|n]; [reflexivity|].
    cbn [seq]. cbn [omap list_omap]. change (list_omap ?f ?l) with (omap f l).
    cbn [lookup list_lookup firstn]. f_equal.
    rewrite omap_lookup_shift. apply IH.
Qed.

Lemma selected_cells_in_range {A : Type} (cells : list A) (sel : list nat) :
  (forall i, In i sel -> (i < length cells)%nat) ->
  Forall2 (fun i a => cells !! i = Some a) sel (selected_cells cells sel).
Proof.
  unfold selected_cells. induction sel as [|i sel IH]; intros Hall.
  - constructor.
  - destruct (lookup_lt_is_Some_2 cells i (Hall i (or_introl eq_refl)))
      as [a Ha].
    cbn [omap list_omap]. change (list_omap ?f ?l) with (omap f l).
    rewrite Ha. constructor; [exact Ha|].
    apply IH. intros j Hj. apply Hall. now right.
Qed.

Lemma py_slice_prefix_length {B : Type} (l : list B) (stop : Z) :
  length (py_slice l 0 stop)
  = Z.to_nat (if (stop <? 0)%Z then Z.max (stop + Z.of_nat (length l)) 0
              else Z.min stop (Z.of_nat (length l))).
Proof.
  unfold py_slice, py_clamp. rewrite length_firstn.
  change (0 <? 0)%Z with false. cbv iota.
  replace (Z.to_nat (Z.min 0 (Z.of_nat (length l)))) with O by lia.
  change (skipn 0 l) with l. destruct (Z.ltb_spec stop 0); lia.
Qed.

Lemma NoDup_firstn_skipn (l : list nat) (k lo : nat) :
  List.NoDup l -> List.NoDup (firstn k (skipn lo l)).
Proof.
  intros Hnd.
  rewrite <- (firstn_skipn lo l) in Hnd.
  apply List.NoDup_app_remove_l in Hnd.
  rewrite <- (firstn_skipn k (skipn lo l)) in Hnd.
  now apply List.NoDup_app_remove_r in Hnd.
Qed.

Lemma py_slice_NoDup (l : list nat) (start stop : Z) :
  List.NoDup l -> List.NoDup (py_slice l start stop).
Proof. intros Hnd. unfold py_slice. now apply NoDup_firstn_skipn. Qed.

Section PopularGamesFacts.

Variable A : Type.
Variable shuffle : list nat -> list nat.
Hypothesis shuffle_perm : forall l, Permutation (shuffle l) l.

Lemma selected_indices_spec (total : nat) (num : Z) :
  List.NoDup (selected_indices_of shuffle total num) /\
  (forall i, In i (selected_indices_of shuffle total num) -> (i < total)%nat) /\
  length (selected_indices_of shuffle total num) = selected_count total num.
Proof.
  unfold selected_indices_of, selected_count. split; [|split].
  - apply py_slice_NoDup.
    apply (Permutation_NoDup (Permutation_sym (shuffle_perm _))), List.seq_NoDup.
  - intros i Hi. apply py_slice_In in Hi.
    apply (Permutation_in _ (shuffle_perm _)), in_seq in Hi. lia.
  - rewrite py_slice_prefix_length.
    rewrite (Permutation_length (shuffle_perm _)), length_seq.
    destruct (Z.ltb_spec num 0), (Z.ltb_spec (Z.min num (Z.of_nat total)) 0);
      lia.
Qed.

(** The selected indices are part of a rearrangement of [0 .. total-1]. *)
Lemma selected_indices_rest (total : nat) (num : Z) :
  exists rest,
    Permutation (selected_indices_of shuffle total num ++ rest) (seq 0 total).
Proof.
  destruct (selected_indices_spec total num) as (Hnd & Hlt & _).
  assert (Hsub : selected_indices_of shuffle total num ⊆+ seq 0 total).
  { apply NoDup_submseteq; [now apply NoDup_ListNoDup|].
    intros i Hi. apply list_elem_of_In in Hi. apply list_elem_of_In.
    apply in_seq. specialize (Hlt i Hi). lia. }
  apply submseteq_Permutation in Hsub. destruct Hsub as [rest Hrest].
  exists rest. now apply Permutation_sym.
Qed.

End PopularGamesFacts.

Lemma get_random_popular_games_run {A : Type} (shuffle : list nat -> list nat)
    (popular_games : gmap string (column A)) (num : Z) (names : list A) :
  popular_games !! "name" = Some (Col names) ->
  get_random_popular_games shuffle popular_games num
  = Ret ((fun v => match v with
                   | Col cells =>
                       Col (selected_cells cells
                              (selected_indices_of shuffle (length names) num))
                   | NotList _ => Col []
                   end) <$> popular_games).
Proof.
  intros Hname. unfold get_random_popular_games, total_games_of.
  rewrite Hname. reflexivity.
Qed.

(** X11: without the key "name" the call raises [KeyError]; when the call
    returns, the result has the keys of [popular_games] and every value of
    it is a list. *)
Theorem get_random_popular_games_keys {A : Type}
    (shuffle : list nat -> list nat)
    (popular_games : gmap string (column A)) (num : Z) :
  (popular_games !! "name" = None ->
     get_random_popular_games shuffle popular_games num = Raise KeyError) /\
  (forall out,
     get_random_popular_games shuffle popular_games num = Ret out ->
     dom out = dom popular_games /\
     forall key v, out !! key = Some v -> exists cells, v = Col cells).
Proof.
  split.
  - intros Hnone. unfold get_random_popular_games, total_games_of.
    rewrite Hnone. reflexivity.
  - intros out. unfold get_random_popular_games.
    destruct (total_games_of popular_games) as [total|]; simpl; [|discriminate].
    intros [= <-]. split; [apply dom_fmap_L|].
    intros key v. rewrite lookup_fmap.
    destruct (popular_games !! key) as [[cells|len]|]; simpl;
      intros [= <-]; eexists; reflexivity.
Qed.

Lemma get_random_popular_games_keys_witness :
  (popular !! "name" = None ->
     get_random_popular_games (@rev nat) popular 40 = Raise KeyError) /\
  (forall out,
     get_random_popular_games (@rev nat) popular 40 = Ret out ->
     dom out = dom popular /\
     forall key v, out !! key = Some v -> exists cells, v = Col cells).
Proof. exact (get_random_popular_games_keys (@rev nat) popular 40). Defined.

(** X12: the call selects [selected_count] pairwise distinct rows, and every
    list that is at least as long as the list of names is cut to the cells
    of those rows, in the same order: the lists stay aligned.  A negative
    [num_to_display] counts from the end. *)
Theorem selected_rows_aligned {A : Type} (shuffle : list nat -> list nat)
    (popular_games : gmap string (column A)) (num : Z) (names : list A) :
  (forall l, Permutation (shuffle l) l) ->
  popular_games !! "name" = Some (Col names) ->
  exists out sel,
    get_random_popular_games shuffle popular_games num = Ret out /\
    List.NoDup sel /\
    (forall i, In i sel -> (i < length names)%nat) /\
    length sel = selected_count (length names) num /\
    forall key cells,
      popular_games !! key = Some (Col cells) ->
      (length names <= length cells)%nat ->
      exists picked,
        out !! key = Some (Col picked) /\
        Forall2 (fun i a => cells !! i = Some a) sel picked.
Proof.
  intros Hperm Hname.
  destruct (selected_indices_spec shuffle Hperm (length names) num)
    as (Hnd & Hlt & Hlen).
  eexists _, (selected_indices_of shuffle (length names) num).
  split; [exact (get_random_popular_games_run shuffle popular_games num names Hname)|].
  split; [exact Hnd|]. split; [exact Hlt|]. split; [exact Hlen|].
  intros key cells Hkey Hlong. eexists. split.
  - rewrite lookup_fmap, Hkey. reflexivity.
  - apply selected_cells_in_range. intros i Hi. specialize (Hlt i Hi). lia.
Qed.

Lemma rev_perm (l : list nat) : Permutation (rev l) l.
Proof. apply Permutation_sym, Permutation_rev. Qed.

Lemma selected_rows_aligned_witness :
  exists out sel,
    get_random_popular_games (@rev nat) popular 2 = Ret out /\
    List.NoDup sel /\
    (forall i, In i sel -> (i < length ["portal"; "doom"; "hades"])%nat) /\
    length sel = selected_count (length ["portal"; "doom"; "hades"]) 2 /\
    forall key cells,
      popular !! key = Some (Col cells) ->
      (length ["portal"; "doom"; "hades"] <= length cells)%nat ->
      exists picked,
        out !! key = Some (Col picked) /\
        Forall2 (fun i a => cells !! i = Some a) sel picked.
Proof.
  apply (selected_rows_aligned (@rev nat) popular 2 ["portal"; "doom"; "hades"]
           rev_perm).
  reflexivity.
Defined.

(** X13: every list of the result is part of a rearrangement of the list
    it was cut from: no cell is invented and none is repeated.  A value that
    is no list becomes the empty list. *)
Theorem selected_cells_from_column {A : Type} (shuffle : list nat -> list nat)
    (popular_games : gmap string (column A)) (num : Z) (names : list A) :
  (forall l, Permutation (shuffle l) l) ->
  popular_games !! "name" = Some (Col names) ->
  exists out,
    get_random_popular_games shuffle popular_games num = Ret out /\
    (forall key cells,
       popular_games !! key = Some (Col cells) ->
       exists picked rest,
         out !! key = Some (Col picked) /\ Permutation (picked ++ rest) cells) /\
    (forall key len,
       popular_games !! key = Some (NotList len) -> out !! key = Some (Col [])).
Proof.
  intros Hperm Hname.
  eexists. split; [exact (get_random_popular_games_run shuffle popular_games num names Hname)|]. split.
  - intros key cells Hkey.
    destruct (selected_indices_rest shuffle Hperm (length names) num)
      as [rest Hrest].
    exists (selected_cells cells (selected_indices_of shuffle (length names) num)),
      (selected_cells cells rest ++ skipn (length names) cells).
    split; [rewrite lookup_fmap, Hkey; reflexivity|].
    rewrite app_assoc. unfold selected_cells at 1 2. rewrite <- omap_app.
    apply Permutation_trans
      with (firstn (length names) cells ++ skipn (length names) cells);
      [|now rewrite firstn_skipn].
    apply Permutation_app_tail.
    rewrite <- selected_cells_seq. unfold selected_cells.
    now apply omap_Permutation.
  - intros key len Hkey. rewrite lookup_fmap, Hkey. reflexivity.
Qed.

Lemma selected_cells_from_column_witness :
  exists out,
    get_random_popular_games (@rev nat) popular 2 = Ret out /\
    (forall key cells,
       popular !! key = Some (Col cells) ->
       exists picked rest,
         out !! key = Some (Col picked) /\ Permutation (picked ++ rest) cells) /\
    (forall key len,
       popular !! key = Some (NotList len) -> out !! key = Some (Col [])).
Proof.
  apply (selected_cells_from_column (@rev nat) popular 2
           ["portal"; "doom"; "hades"] rev_perm).
  reflexivity.
Defined.

(** X14: when [num_to_display] is at least the number of names, a list as
    long as the list of names comes back whole, rearranged. *)
Theorem all_games_selected {A : Type} (shuffle : list nat -> list nat)
    (popular_games : gmap string (column A)) (num : Z) (names : list A)
    (key : string) (cells : list A) :
  (forall l, Permutation (shuffle l) l) ->
  popular_games !! "name" = Some (Col names) ->
  (Z.of_nat (length names) <= num)%Z ->
  popular_games !! key = Some (Col cells) -> length cells = length names ->
  exists out picked,
    get_random_popular_games shuffle popular_games num = Ret out /\
    out !! key = Some (Col picked) /\ Permutation picked cells.
Proof.
  intros Hperm Hname Hnum Hkey Hlen.
  eexists _, _. split; [exact (get_random_popular_games_run shuffle popular_games num names Hname)|].
  split; [rewrite lookup_fmap, Hkey; reflexivity|].
  assert (Hsel : selected_indices_of shuffle (length names) num
                 = shuffle (seq 0 (length names))).
  { unfold selected_indices_of, py_slice, py_clamp.
    rewrite (Permutation_length (Hperm _)), length_seq.
    change (0 <? 0)%Z with false. cbv iota.
    replace (Z.to_nat (Z.min 0 (Z.of_nat (length names)))) with O by lia.
    change (skipn 0 ?l) with l.
    apply firstn_all2.
    rewrite (Permutation_length (Hperm _)), length_seq.
    destruct (Z.ltb_spec (Z.min num (Z.of_nat (length names))) 0); lia. }
  rewrite Hsel. unfold selected_cells.
  rewrite (omap_Permutation _ _ _ (Hperm (seq 0 (length names)))).
  fold (selected_cells cells (seq 0 (length names))).
  rewrite selected_cells_seq, <- Hlen, firstn_all. reflexivity.
Qed.

Lemma all_games_selected_witness :
  exists out picked,
    get_random_popular_games (@rev nat) popular 40 = Ret out /\
    out !! "steam_url" = Some (Col picked) /\
    Permutation picked ["u/portal"; "u/doom"; "u/hades"].
Proof.
  apply (all_games_selected (@rev nat) popular 40 ["portal"; "doom"; "hades"]
           "steam_url" ["u/portal"; "u/doom"; "u/hades"] rev_perm);
    try reflexivity. simpl. lia.
Defined.

(** ** A negative [n_recommendation] *)

Lemma length_recomm_idx_negative (final : list Q) (n : Z) :
  (n <= -2)%Z ->
  length (recomm_idx final n)
  = Z.to_nat (Z.max (Z.of_nat (length final) + n) 0).
Proof.
  intros Hn. unfold recomm_idx, py_slice.
  rewrite length_firstn, length_skipn, length_rev.
  rewrite (Permutation_length (argsort_perm final)), length_seq.
  unfold py_clamp.
  destruct (Z.ltb_spec 1 0); [lia|].
  destruct (Z.ltb_spec (n + 1) 0); lia.
Qed.

(** X15: a negative [n_recommendation] is not refused but read as a slice
    bound counted from the end: for [n <= -2] a call that resolves returns
    [N + n] games, and none when that is not positive. *)
Theorem negative_n_counts_from_end
    (extractOne : string -> list string -> option (string * Z))
    (title found : string) (data : DataFrame) (n : Z) (alpha : Q)
    (sim : matrix) (g_idx : nat) (view : list Q) :
  resolve_title extractOne default_threshold title data = Ret (Found found) ->
  first_index found data = Some g_idx ->
  sim !! g_idx = Some view -> length view = length data -> (n <= -2)%Z ->
  exists games sim',
    recommend_game extractOne title data n alpha sim
    = (Ret (output_message found, games), sim') /\
    length games = Z.to_nat (Z.max (Z.of_nat (length data) + n) 0).
Proof.
  intros Hres Hidx Hrow Hlen Hn.
  pose proof (first_index_bound _ _ _ Hidx) as Hg.
  destruct (recommend_at_returns g_idx found data n alpha sim view Hg Hrow Hlen)
    as (scores & jaccard & cosine & games & _ & _ & _ & Hjl & Hcl & Hrest).
  cbv zeta in Hrest. destruct Hrest as (_ & _ & Hgl & Hrun).
  exists games, (<[g_idx := cosine]> sim). split.
  - rewrite (recommend_game_found extractOne title found data g_idx n alpha sim
               Hres Hidx). exact Hrun.
  - rewrite Hgl, length_recomm_idx_negative by exact Hn.
    rewrite length_combined by congruence. now rewrite Hjl.
Qed.

Lemma negative_n_counts_from_end_witness :
  exists games sim',
    recommend_game prefix_extractOne "a" catalog (-2) (3 # 10) dense
    = (Ret (output_message "a", games), sim') /\
    length games = Z.to_nat (Z.max (Z.of_nat (length catalog) + -2) 0).
Proof.
  apply (negative_n_counts_from_end prefix_extractOne "a" "a" catalog (-2)
           (3 # 10) dense 0 [1; 8 # 10; 1 # 10]); reflexivity.
Defined.

(** ** The resolved title *)

(** X16: a title that resolves, by either path, resolves to the name of a
    row of the catalog, so the lookup of line 126 finds a position, the
    first one with that name. *)
Theorem resolved_title_has_row
    (extractOne : string -> list string -> option (string * Z))
    (threshold : Z) (title found : string) (data : DataFrame) :
  resolve_title extractOne threshold title data = Ret (Found found) ->
  exists g_idx r,
    g_index found data = Ret g_idx /\ (g_idx < length data)%nat /\
    data !! g_idx = Some r /\ Name r = found /\
    (forall j r', (j < g_idx)%nat -> data !! j = Some r' -> Name r' <> found).
Proof.
  intros Hres.
  pose proof (resolve_title_found_in _ _ _ _ _ Hres) as Hin.
  destruct (first_index_spec _ _ Hin) as (g & r & Hg & Hr & Hn & Hfirst).
  pose proof (first_index_bound _ _ _ Hg) as Hlt.
  exists g, r. unfold g_index. rewrite Hg.
  split; [reflexivity|]. split; [exact Hlt|]. split; [exact Hr|].
  split; [exact Hn | exact Hfirst].
Qed.

Lemma resolved_title_has_row_witness :
  exists g_idx r,
    g_index "portal" shelf = Ret g_idx /\ (g_idx < length shelf)%nat /\
    shelf !! g_idx = Some r /\ Name r = "portal" /\
    (forall j r', (j < g_idx)%nat -> shelf !! j = Some r' -> Name r' <> "portal").
Proof.
  apply (resolved_title_has_row prefix_extractOne default_threshold " Porta"
           "portal" shelf).
  reflexivity.
Defined.

(** ** When the query does rank first *)

Lemma StronglySorted_app_inv {B : Type} (R : B -> B -> Prop) (l1 l2 : list B) :
  StronglySorted R (l1 ++ l2) ->
  forall x y, In x l1 -> In y l2 -> R x y.
Proof.
  induction l1 as [|a l1 IH]; simpl; intros Hs x y Hx Hy; [contradiction|].
  apply StronglySorted_inv in Hs. destruct Hs as [Hs Ha].
  destruct Hx as [->|Hx]; [|now apply IH].
  rewrite List.Forall_forall in Ha. apply Ha. apply in_or_app. now right.
Qed.

(** X17: when the combined score of the query is strictly above every
    other one, the query is left out, and for [n] not negative the list
    holds the best of the other games: no game left out, other than the
    query, scores above a game of the list. *)
Theorem top_query_excluded (final : list Q) (g_idx : nat) (n : Z) :
  (g_idx < length final)%nat ->
  (forall i, (i < length final)%nat -> i <> g_idx ->
     nth i final 0 < nth g_idx final 0) ->
  ~ In g_idx (recomm_idx final n) /\
  ((0 <= n)%Z ->
   forall i j, In i (recomm_idx final n) ->
     (j < length final)%nat -> j <> g_idx -> ~ In j (recomm_idx final n) ->
     nth j final 0 <= nth i final 0).
Proof.
  intros Hg Htop.
  pose proof (StronglySorted_rev _ _ (argsort_ascending final)) as Hsorted.
  pose proof (List.NoDup_rev (argsort_NoDup final)) as Hnd.
  assert (Hin : forall j, In j (rev (argsort final)) <-> (j < length final)%nat).
  { intros j. rewrite <- in_rev. split.
    - intros Hj. apply (Permutation_in _ (argsort_perm final)), in_seq in Hj. lia.
    - intros Hj. apply (Permutation_in _ (Permutation_sym (argsort_perm final))).
      apply in_seq. lia. }
  assert (Hhead : head (rev (argsort final)) = Some g_idx).
  { destruct (rev (argsort final)) as [|top order] eqn:Horder.
    - exfalso. apply (Hin g_idx) in Hg. contradiction.
    - simpl. f_equal. destruct (Nat.eq_dec top g_idx) as [Heq|Hne]; [exact Heq|].
      exfalso. apply StronglySorted_inv in Hsorted. destruct Hsorted as [_ Hall].
      rewrite List.Forall_forall in Hall.
      assert (Hgin : In g_idx order).
      { apply (Hin g_idx) in Hg. destruct Hg as [Heq|Hg]; [congruence | exact Hg]. }
      specialize (Hall g_idx Hgin). simpl in Hall.
      assert (Htl : (top < length final)%nat) by (apply Hin; now left).
      specialize (Htop top Htl Hne).
      apply (Qlt_not_le _ _ Htop Hall). }
  split; [now apply top_position_dropped|].
  intros Hn i j Hi Hj Hjg Hjout.
  unfold recomm_idx, py_slice in Hi, Hjout.
  destruct (rev (argsort final)) as [|top order] eqn:Horder; [discriminate|].
  injection Hhead as ->.
  assert (Hlo : py_clamp (Z.of_nat (length (g_idx :: order))) 1 = 1%Z).
  { unfold py_clamp. simpl length. destruct (Z.ltb_spec 1 0); lia. }
  rewrite Hlo in Hi, Hjout.
  change (skipn (Z.to_nat 1) (g_idx :: order)) with order in Hi, Hjout.
  set (k := Z.to_nat _) in Hi, Hjout.
  apply StronglySorted_inv in Hsorted. destruct Hsorted as [Hsorted _].
  rewrite <- (firstn_skipn k order) in Hsorted.
  apply (StronglySorted_app_inv _ _ _ Hsorted i j Hi).
  assert (Hjin : In j order).
  { apply (Hin j) in Hj. destruct Hj as [Heq|Hj]; [congruence | exact Hj]. }
  rewrite <- (firstn_skipn k order) in Hjin.
  apply in_app_or in Hjin. destruct Hjin as [Hjin|Hjin]; [contradiction | exact Hjin].
Qed.

Lemma top_query_excluded_witness :
  ~ In 0%nat (recomm_idx [2; 6 # 10; 2 # 10] 2) /\
  ((0 <= 2)%Z ->
   forall i j, In i (recomm_idx [2; 6 # 10; 2 # 10] 2) ->
     (j < length [2%Q; 6 # 10; 2 # 10])%nat -> j <> 0%nat ->
     ~ In j (recomm_idx [2; 6 # 10; 2 # 10] 2) ->
     nth j [2; 6 # 10; 2 # 10] 0 <= nth i [2; 6 # 10; 2 # 10] 0).
Proof.
  apply (top_query_excluded [2; 6 # 10; 2 # 10] 0 2); [simpl; lia|].
  intros i Hi Hne. simpl in Hi.
  destruct i as [|[|[|i]]]; [congruence | reflexivity | reflexivity | lia].
Defined.
